(** * Search-query filter detection (pkg/github/search_utils.go)

    A shallow embedding of [hasFilter] and [hasSpecificFilter], the two
    hand-written scanners that decide whether a search query already
    carries a [key:] filter or an exact [key:value] pair.

    Go strings are byte sequences: [len] counts bytes and [s[i]] is the
    byte at offset [i].  They are modelled as [string], whose characters
    are the 8-bit [ascii] values.  Indices are [nat]; the sentinel [-1] of
    [strings.Index] is [None].  Indexing or slicing out of range panics in
    Go, which the model makes explicit in the result type. *)

From Stdlib Require Import ZArith Lia Bool List Arith.
From Stdlib Require Import Strings.Ascii Strings.String.
Import ListNotations.

Local Open Scope string_scope.
Local Open Scope nat_scope.

(** ** Results of running Go code *)

Inductive res (A : Type) : Type :=
| Ok (a : A)        (* normal return *)
| Panic             (* run-time panic: index or slice out of range *)
| OutOfFuel.        (* the iteration budget of the model ran out *)

Arguments Ok {A} a.
Arguments Panic {A}.
Arguments OutOfFuel {A}.

Definition bind {A B : Type} (m : res A) (k : A -> res B) : res B :=
  match m with
  | Ok a => k a
  | Panic => Panic
  | OutOfFuel => OutOfFuel
  end.

Notation "x <- m ;; k" := (bind m (fun x => k))
  (at level 61, m at next level, right associativity).

(** ** Runes and the [unicode] predicates *)

Definition rune := Z.

(** The conversion [rune(b)] of a byte: its numeric value, 0..255. *)
Definition rune_of_byte (b : ascii) : rune := Z.of_N (N_of_ascii b).

Module unicode.

Local Open Scope Z_scope.

Definition MaxLatin1 : rune := 255.

Definition isLatin1 (r : rune) : bool := (0 <=? r)%Z && (r <=? MaxLatin1)%Z.

Definition between (lo hi r : rune) : bool := (lo <=? r)%Z && (r <=? hi)%Z.

(** The part of the White_Space range table above Latin-1. *)
Definition White_Space_above_Latin1 (r : rune) : bool :=
  (r =? 0x1680)%Z || between 0x2000 0x200a r || between 0x2028 0x2029 r
  || (r =? 0x202f)%Z || (r =? 0x205f)%Z || (r =? 0x3000)%Z.

(** [unicode.IsSpace]: in Latin-1 the spaces are tab, newline, vertical
    tab, form feed, carriage return, space, U+0085 and U+00A0. *)
Definition IsSpace (r : rune) : bool :=
  if isLatin1 r then
    (r =? 9)%Z || (r =? 10)%Z || (r =? 11)%Z || (r =? 12)%Z || (r =? 13)%Z
    || (r =? 32)%Z || (r =? 0x85)%Z || (r =? 0xA0)%Z
  else White_Space_above_Latin1 r.

(** An excerpt of the Letter range table above Latin-1: the Hebrew
    letters U+05D0-U+05EA.  The rest of the table is not reproduced. *)
Definition Letter_above_Latin1 (r : rune) : bool := between 0x05D0 0x05EA r.

(** [unicode.IsLetter]; on its Latin-1 path, the [properties] array:
    A-Z, a-z, U+00AA, U+00B5, U+00BA, U+00C0-U+00D6, U+00D8-U+00F6 and
    U+00F8-U+00FF.  Every call in search_utils.go passes [rune(byte)], so
    only this path is ever taken there; above Latin-1 the model knows the
    excerpt [Letter_above_Latin1] of the range table only. *)
Definition IsLetter (r : rune) : bool :=
  if isLatin1 r then
    between 65 90 r || between 97 122 r
    || (r =? 0xAA)%Z || (r =? 0xB5)%Z || (r =? 0xBA)%Z
    || between 0xC0 0xD6 r || between 0xD8 0xF6 r || between 0xF8 0xFF r
  else Letter_above_Latin1 r.

(** [unicode.IsDigit] on its Latin-1 path: '0'..'9'.  As for [IsLetter]
    the table above Latin-1 is not reproduced. *)
Definition IsDigit (r : rune) : bool :=
  if isLatin1 r then between 48 57 r else false.

End unicode.

(** The rune of the underscore character. *)
Definition underscore : rune := 95%Z.

(** ** Strings: [s[i]], [s[k:]] and [strings.Index] *)

(** [s[i]]: the byte at offset [i]; panics when [i] is out of range. *)
Definition byte_at (s : string) (i : nat) : res ascii :=
  match get i s with
  | Some b => Ok b
  | None => Panic
  end.

(** [s[k:]]: the suffix from offset [k]; panics when [k > len(s)]. *)
Definition slice_from (s : string) (k : nat) : res string :=
  if k <=? length s then Ok (substring k (length s - k) s) else Panic.

(** [strings.Index(s, substr)]: offset of the first occurrence of [substr]
    in [s], [None] standing for -1. *)
Definition Index (s substr : string) : option nat := index 0 substr s.

(** ** hasFilter *)

(** The loop [for idx != -1 { ... }] of [hasFilter], entered with [idx] at
    an occurrence of [prefix].  [&&] and [||] short-circuit, so the byte
    after the prefix is only read under the length guard. *)
Fixpoint hasFilter_loop (fuel : nat) (query prefix : string) (idx : nat)
  : res bool :=
  match fuel with
  | O => OutOfFuel
  | S fuel' =>
      found <-
        (if idx =? 0 then
           if idx + length prefix <? length query then
             c <- byte_at query (idx + length prefix) ;;
             Ok (negb (unicode.IsSpace (rune_of_byte c)))
           else Ok false
         else
           b <- byte_at query (idx - 1) ;;
           let prevChar := rune_of_byte b in
           if unicode.IsSpace prevChar
              || (negb (unicode.IsLetter prevChar)
                  && negb (unicode.IsDigit prevChar)
                  && negb (prevChar =? underscore)%Z)
           then
             if idx + length prefix <? length query then
               c <- byte_at query (idx + length prefix) ;;
               Ok (negb (unicode.IsSpace (rune_of_byte c)))
             else Ok false
           else Ok false) ;;
      if found then Ok true
      else
        remaining <- slice_from query (idx + length prefix) ;;
        match Index remaining prefix with
        | None => Ok false
        | Some nextIdx =>
            hasFilter_loop fuel' query prefix (idx + length prefix + nextIdx)
        end
  end.

Definition hasFilter_fuel (fuel : nat) (query filterType : string) : res bool :=
  let prefix := filterType ++ ":" in
  match Index query prefix with
  | None => Ok false
  | Some idx => hasFilter_loop fuel query prefix idx
  end.

(** [hasFilter]: the loop advances by at least one byte per round, so
    [len(query)] rounds are always enough (see [hasFilter_fuel_enough]). *)
Definition hasFilter (query filterType : string) : res bool :=
  hasFilter_fuel (length query) query filterType.

(** ** hasSpecificFilter *)

Fixpoint hasSpecificFilter_loop (fuel : nat) (query target : string) (idx : nat)
  : res bool :=
  match fuel with
  | O => OutOfFuel
  | S fuel' =>
      validStart <-
        (if idx =? 0 then Ok true
         else
           b <- byte_at query (idx - 1) ;;
           let prevChar := rune_of_byte b in
           Ok (unicode.IsSpace prevChar
               || (negb (unicode.IsLetter prevChar)
                   && negb (unicode.IsDigit prevChar)
                   && negb (prevChar =? underscore)%Z))) ;;
      found <-
        (if validStart then
           let endIdx := idx + length target in
           if endIdx =? length query then Ok true
           else
             b <- byte_at query endIdx ;;
             let nextChar := rune_of_byte b in
             Ok (unicode.IsSpace nextChar
                 || (negb (unicode.IsLetter nextChar)
                     && negb (unicode.IsDigit nextChar)
                     && negb (nextChar =? underscore)%Z))
         else Ok false) ;;
      if found then Ok true
      else
        remaining <- slice_from query (idx + length target) ;;
        match Index remaining target with
        | None => Ok false
        | Some nextIdx =>
            hasSpecificFilter_loop fuel' query target
              (idx + length target + nextIdx)
        end
  end.

Definition hasSpecificFilter_fuel (fuel : nat)
  (query filterType filterValue : string) : res bool :=
  let target := filterType ++ ":" ++ filterValue in
  match Index query target with
  | None => Ok false
  | Some idx => hasSpecificFilter_loop fuel query target idx
  end.

Definition hasSpecificFilter (query filterType filterValue : string)
  : res bool :=
  hasSpecificFilter_fuel (length query) query filterType filterValue.

Definition hasRepoFilter (query : string) : res bool := hasFilter query "repo".

Definition hasTypeFilter (query : string) : res bool := hasFilter query "type".

(** ** Sanity checks on the queries of the benchmark file *)

Example bench_simple : hasFilter "is:issue bug report" "is" = Ok true.
Proof. reflexivity. Qed.

Example bench_absent :
  hasFilter "some text with no filter present in this query at all" "is"
  = Ok false.
Proof. reflexivity. Qed.

Example bench_repo :
  hasRepoFilter "repo:github/github-mcp-server is:issue bug" = Ok true.
Proof. reflexivity. Qed.

Example bench_type : hasTypeFilter "location:seattle followers:>50" = Ok false.
Proof. reflexivity. Qed.

Example bench_specific :
  hasSpecificFilter
    "repo:github/github-mcp-server is:issue (label:critical OR label:urgent)"
    "is" "issue" = Ok true.
Proof. reflexivity. Qed.

(** ** Facts about byte strings *)

Set Implicit Arguments.

Section StringFacts.

Lemma length_app (s1 s2 : string) : length (s1 ++ s2) = length s1 + length s2.
Proof. induction s1 as [|c s1 IH]; simpl; [reflexivity | now rewrite IH]. Qed.

Lemma get_some (s : string) (n : nat) :
  n < length s -> exists c, get n s = Some c.
Proof.
  revert n; induction s as [|c s IH]; simpl; intros n Hn; [lia|].
  destruct n as [|n]; [now exists c | apply IH; lia].
Qed.

Lemma get_none (s : string) (n : nat) : length s <= n -> get n s = None.
Proof.
  revert n; induction s as [|c s IH]; simpl; intros n Hn; [reflexivity|].
  destruct n as [|n]; [lia | apply IH; lia].
Qed.

Lemma get_lt (s : string) (n : nat) (c : ascii) :
  get n s = Some c -> n < length s.
Proof.
  intros H. destruct (Nat.lt_ge_cases n (length s)) as [Hlt|Hge]; [exact Hlt|].
  rewrite (get_none s Hge) in H. discriminate.
Qed.

Lemma substring_empty (n m : nat) : substring n m "" = "".
Proof. destruct n, m; reflexivity. Qed.

Lemma substring_all (s : string) : substring 0 (length s) s = s.
Proof. induction s as [|c s IH]; simpl; [reflexivity | now rewrite IH]. Qed.

Lemma length_substring (s : string) (n m : nat) :
  length (substring n m s) = Nat.min m (length s - n).
Proof.
  revert n m; induction s as [|c s IH]; intros n m.
  - rewrite substring_empty; simpl. now rewrite Nat.min_0_r.
  - destruct n as [|n]; simpl.
    + destruct m as [|m]; simpl; [reflexivity|].
      rewrite IH, Nat.sub_0_r. reflexivity.
    + apply IH.
Qed.

(** Taking a substring of the suffix [s[k:]] is taking it of [s], [k]
    bytes further. *)
Lemma substring_suffix (s : string) (k m l : nat) :
  substring m l (substring k (length s - k) s) = substring (k + m) l s.
Proof.
  revert s; induction k as [|k IH]; intros s.
  - rewrite Nat.sub_0_r, substring_all. reflexivity.
  - destruct s as [|c s]; simpl.
    + destruct m, l; reflexivity.
    + apply IH.
Qed.

End StringFacts.

(** ** Occurrences of a pattern and the character classes of the rules *)

(** [pat] occurs in [q] at offset [i]. *)
Definition occurs_at (pat q : string) (i : nat) : Prop :=
  substring i (length pat) q = pat.

Definition occurs_atb (pat q : string) (i : nat) : bool :=
  String.eqb (substring i (length pat) q) pat.

Definition is_space (b : ascii) : bool := unicode.IsSpace (rune_of_byte b).

(** Word characters: letters, digits and the underscore. *)
Definition is_word_char (b : ascii) : bool :=
  let r := rune_of_byte b in
  unicode.IsLetter r || unicode.IsDigit r || (r =? underscore)%Z.

(** A valid filter start: offset 0, or the preceding character is
    whitespace or is not a word character. *)
Definition valid_start (q : string) (i : nat) : bool :=
  match i with
  | O => true
  | S j =>
      match get j q with
      | Some b => is_space b || negb (is_word_char b)
      | None => false
      end
  end.

(** Some value is attached: a non-whitespace character sits at offset [j]. *)
Definition has_value (q : string) (j : nat) : bool :=
  match get j q with
  | Some b => negb (is_space b)
  | None => false
  end.

(** A valid end at offset [j]: end of string, or the character there is
    whitespace or is not a word character. *)
Definition valid_end (q : string) (j : nat) : bool :=
  (j =? length q)
  || match get j q with
     | Some b => is_space b || negb (is_word_char b)
     | None => false
     end.

(** No colon inside a filter key. *)
Fixpoint colon_free (s : string) : bool :=
  match s with
  | EmptyString => true
  | String c s' => negb (Ascii.eqb c ":") && colon_free s'
  end.

Section OccurrenceFacts.

Variables pat q : string.

Lemma occurs_atb_spec (i : nat) : occurs_atb pat q i = true <-> occurs_at pat q i.
Proof. unfold occurs_atb, occurs_at. apply String.eqb_eq. Qed.

Lemma occurs_at_dec (i : nat) : {occurs_at pat q i} + {~ occurs_at pat q i}.
Proof. unfold occurs_at. apply string_dec. Qed.

Lemma nonempty_length : pat <> "" -> 1 <= length pat.
Proof. destruct pat; simpl; [congruence | lia]. Qed.

(** An occurrence of a non-empty pattern lies inside the string. *)
Lemma occurs_at_bound (i : nat) :
  pat <> "" -> occurs_at pat q i -> i + length pat <= length q.
Proof.
  intros Hne Hocc. pose proof (nonempty_length Hne) as Hlen.
  unfold occurs_at in Hocc.
  pose proof (length_substring q i (length pat)) as Hl.
  rewrite Hocc in Hl. lia.
Qed.

Lemma occurs_at_get (i p : nat) :
  occurs_at pat q i -> p < length pat -> get (i + p) q = get p pat.
Proof.
  intros Hocc Hp. unfold occurs_at in Hocc.
  rewrite <- Hocc at 1. rewrite substring_correct1 by exact Hp.
  now rewrite Nat.add_comm.
Qed.

(** Occurrences in the suffix [q[k:]] are the occurrences of [q] from [k]. *)
Lemma occurs_at_suffix (k m : nat) :
  occurs_at pat (substring k (length q - k) q) m <-> occurs_at pat q (k + m).
Proof. unfold occurs_at. now rewrite substring_suffix. Qed.

Lemma Index_some (k n : nat) :
  Index (substring k (length q - k) q) pat = Some n ->
  occurs_at pat q (k + n)
  /\ forall m, k <= m -> m < k + n -> ~ occurs_at pat q m.
Proof.
  unfold Index. intros H. split.
  - apply occurs_at_suffix. exact (index_correct1 _ _ _ _ H).
  - intros m Hkm Hm Hocc.
    apply (index_correct2 _ _ _ _ H (m - k)); [lia | lia |].
    apply occurs_at_suffix. now replace (k + (m - k)) with m by lia.
Qed.

Lemma Index_none (k : nat) :
  pat <> "" ->
  Index (substring k (length q - k) q) pat = None ->
  forall m, k <= m -> ~ occurs_at pat q m.
Proof.
  unfold Index. intros Hne H m Hkm Hocc.
  apply (index_correct3 0 (m - k) _ _ H Hne); [lia |].
  apply occurs_at_suffix. now replace (k + (m - k)) with m by lia.
Qed.

Lemma Index_whole_some (n : nat) :
  Index q pat = Some n ->
  occurs_at pat q n /\ forall m, m < n -> ~ occurs_at pat q m.
Proof.
  intros H. pose proof (@Index_some 0 n) as Hs.
  rewrite Nat.sub_0_r, substring_all in Hs. destruct (Hs H) as [H1 H2].
  split; [exact H1 | intros m Hm; apply H2; lia].
Qed.

Lemma Index_whole_none :
  pat <> "" -> Index q pat = None -> forall m, ~ occurs_at pat q m.
Proof.
  intros Hne H m. pose proof (@Index_none 0 Hne) as Hs.
  rewrite Nat.sub_0_r, substring_all in Hs. apply (Hs H). lia.
Qed.

End OccurrenceFacts.

(** ** The repeated-occurrence scan shared by both functions

    Both loops have the same shape: test the occurrence at [idx], and
    when it is rejected look for the next occurrence in
    [query[idx+len(pat):]], that is, after the current one. *)

Section Scan.

Variables query pat : string.

(** The test a loop applies to the occurrence at an offset. *)
Variable check : nat -> res bool.

Fixpoint scan_loop (fuel idx : nat) : res bool :=
  match fuel with
  | O => OutOfFuel
  | S fuel' =>
      found <- check idx ;;
      if found then Ok true
      else
        remaining <- slice_from query (idx + length pat) ;;
        match Index remaining pat with
        | None => Ok false
        | Some nextIdx => scan_loop fuel' (idx + length pat + nextIdx)
        end
  end.

Definition scan (fuel : nat) : res bool :=
  match Index query pat with
  | None => Ok false
  | Some idx => scan_loop fuel idx
  end.

(** The offsets the scan visits: the leftmost occurrence, and after an
    occurrence at [i] the leftmost occurrence that starts at or after
    its end [i + len(pat)]. *)
Definition first_occ (i : nat) : Prop :=
  occurs_at pat query i /\ forall k, k < i -> ~ occurs_at pat query k.

Definition next_occ (i j : nat) : Prop :=
  occurs_at pat query j /\ i + length pat <= j
  /\ forall k, i + length pat <= k -> k < j -> ~ occurs_at pat query k.

Inductive scanned : nat -> Prop :=
| scanned_first (i : nat) : first_occ i -> scanned i
| scanned_next (i j : nat) : scanned i -> next_occ i j -> scanned j.

(** The offsets visited from [i] on. *)
Inductive reach (i : nat) : nat -> Prop :=
| reach_here : reach i i
| reach_step (j k : nat) : next_occ i j -> reach j k -> reach i k.

Lemma first_occ_unique (i j : nat) : first_occ i -> first_occ j -> i = j.
Proof.
  intros [Hi Hli] [Hj Hlj].
  destruct (Nat.lt_trichotomy i j) as [H|[H|H]]; [|exact H|].
  - exfalso. exact (Hlj i H Hi).
  - exfalso. exact (Hli j H Hj).
Qed.

Lemma next_occ_unique (i j k : nat) : next_occ i j -> next_occ i k -> j = k.
Proof.
  intros (Hj & Hij & Hlj) (Hk & Hik & Hlk).
  destruct (Nat.lt_trichotomy j k) as [H|[H|H]]; [|exact H|].
  - exfalso. exact (Hlk j Hij H Hj).
  - exfalso. exact (Hlj k Hik H Hk).
Qed.

Lemma scanned_occurs (i : nat) : scanned i -> occurs_at pat query i.
Proof. intros [j [H _] | j k _ [H _]]; exact H. Qed.

Lemma reach_scanned (i j : nat) : reach i j -> scanned i -> scanned j.
Proof.
  induction 1 as [|i j k Hn _ IH]; intros Hs; [exact Hs|].
  apply IH. exact (scanned_next Hs Hn).
Qed.

Lemma reach_trans (i j k : nat) : reach i j -> reach j k -> reach i k.
Proof.
  induction 1 as [|i j l Hn _ IH]; intros H; [exact H|].
  exact (reach_step Hn (IH H)).
Qed.

Lemma scanned_reach (j : nat) :
  scanned j -> exists i, first_occ i /\ reach i j.
Proof.
  induction 1 as [i Hf | i j _ (i0 & Hf & Hr) Hn].
  - exists i. split; [exact Hf | constructor].
  - exists i0. split; [exact Hf|].
    apply (reach_trans Hr). exact (reach_step Hn (reach_here j)).
Qed.

(** Strict forward progress: each round moves strictly to the right. *)
Lemma next_occ_progress (i j : nat) : pat <> "" -> next_occ i j -> i < j.
Proof.
  intros Hne (_ & H & _). pose proof (nonempty_length Hne). lia.
Qed.

Lemma reach_le (i j : nat) : reach i j -> i <= j.
Proof.
  induction 1 as [|i j k (_ & H & _) _ IH]; [reflexivity | lia].
Qed.

Hypothesis pat_nonempty : pat <> "".

(** What [check] computes at an occurrence. *)
Variable ok : nat -> bool.
Hypothesis check_ok :
  forall i, occurs_at pat query i -> check i = Ok (ok i).

Lemma scan_loop_spec (fuel idx : nat) :
  occurs_at pat query idx ->
  length query - idx <= fuel ->
  exists b, scan_loop fuel idx = Ok b
            /\ (b = true <-> exists j, reach idx j /\ ok j = true).
Proof.
  revert idx; induction fuel as [|fuel IH]; intros idx Hocc Hfuel.
  - pose proof (occurs_at_bound pat_nonempty Hocc).
    pose proof (nonempty_length pat_nonempty). lia.
  - pose proof (occurs_at_bound pat_nonempty Hocc) as Hb.
    pose proof (nonempty_length pat_nonempty) as Hl.
    simpl. rewrite (check_ok Hocc). simpl.
    destruct (ok idx) eqn:Hok.
    + exists true. split; [reflexivity|].
      split; [intros _ | reflexivity].
      exists idx. split; [constructor | exact Hok].
    + unfold slice_from.
      replace (idx + length pat <=? length query) with true
        by (symmetry; apply Nat.leb_le; exact Hb).
      simpl.
      destruct (Index _ pat) as [n|] eqn:Hidx.
      * destruct (Index_some _ _ _ Hidx) as [Hn Hleast].
        assert (Hnext : next_occ idx (idx + length pat + n)).
        { split; [exact Hn|]. split; [lia|].
          intros k H1 H2. apply Hleast; assumption. }
        destruct (IH (idx + length pat + n) Hn) as (b & Hrun & Hiff); [lia|].
        exists b. split; [exact Hrun|].
        rewrite Hiff. split.
        -- intros (j & Hr & Hj). exists j.
           split; [exact (reach_step Hnext Hr) | exact Hj].
        -- intros (j & Hr & Hj). inversion Hr as [Heq | j' k' Hn' Hr' Heq].
           ++ subst j. congruence.
           ++ subst k'. rewrite (next_occ_unique Hnext Hn').
              exists j. split; assumption.
      * exists false. split; [reflexivity|].
        split; [discriminate|].
        intros (j & Hr & Hj). exfalso.
        inversion Hr as [Heq | j' k' (Hn' & Hle & _) Hr' Heq].
        -- subst j. congruence.
        -- exact (Index_none pat_nonempty Hidx Hle Hn').
Qed.

(** The scan returns, and returns [true] exactly when a visited
    occurrence passes the test. *)
Lemma scan_spec (fuel : nat) :
  length query <= fuel ->
  exists b, scan fuel = Ok b
            /\ (b = true <-> exists j, scanned j /\ ok j = true).
Proof.
  intros Hfuel. unfold scan.
  destruct (Index query pat) as [idx|] eqn:Hidx.
  - destruct (Index_whole_some _ _ Hidx) as [Hocc Hleast].
    assert (Hfirst : first_occ idx) by (split; assumption).
    destruct (@scan_loop_spec fuel idx Hocc) as (b & Hrun & Hiff); [lia|].
    exists b. split; [exact Hrun|].
    rewrite Hiff. split.
    + intros (j & Hr & Hj). exists j. split; [|exact Hj].
      apply (reach_scanned Hr). constructor. exact Hfirst.
    + intros (j & Hs & Hj). exists j. split; [|exact Hj].
      destruct (scanned_reach Hs) as (i & Hf & Hr).
      now rewrite (first_occ_unique Hfirst Hf).
  - exists false. split; [reflexivity|].
    split; [discriminate|].
    intros (j & Hs & _). exfalso.
    exact (Index_whole_none pat_nonempty Hidx (scanned_occurs Hs)).
Qed.

(** An occurrence that no earlier occurrence overlaps is visited. *)
Lemma scanned_from (i j : nat) :
  scanned i -> i <= j -> occurs_at pat query j ->
  (forall k, occurs_at pat query k -> k < j -> k + length pat <= j) ->
  scanned j.
Proof.
  intros Hs Hij Hj Hfree.
  remember (j - i) as d eqn:Hd.
  revert i Hs Hij Hd.
  induction d as [d IH] using (well_founded_induction lt_wf).
  intros i Hs Hij Hd.
  destruct (Nat.eq_dec i j) as [->|Hne]; [exact Hs|].
  pose proof (nonempty_length pat_nonempty) as Hl.
  pose proof (occurs_at_bound pat_nonempty Hj) as Hjb.
  assert (Hi : i + length pat <= j)
    by (apply Hfree; [exact (scanned_occurs Hs) | lia]).
  destruct (Index (substring (i + length pat)
                     (length query - (i + length pat)) query) pat)
    as [n|] eqn:Hidx.
  - destruct (Index_some _ _ _ Hidx) as [Hn Hleast].
    assert (Hnj : i + length pat + n <= j).
    { destruct (Nat.le_gt_cases (i + length pat + n) j) as [H|H]; [exact H|].
      exfalso. exact (Hleast j Hi H Hj). }
    apply (IH (j - (i + length pat + n))) with (i := i + length pat + n);
      [lia | | exact Hnj | reflexivity].
    apply (scanned_next Hs). split; [exact Hn|]. split; [lia|].
    intros k H1 H2. apply Hleast; assumption.
  - exfalso. exact (Index_none pat_nonempty Hidx Hi Hj).
Qed.

Lemma scanned_of_no_overlap (j : nat) :
  occurs_at pat query j ->
  (forall k, occurs_at pat query k -> k < j -> k + length pat <= j) ->
  scanned j.
Proof.
  intros Hj Hfree.
  destruct (Index query pat) as [i|] eqn:Hidx.
  - destruct (Index_whole_some _ _ Hidx) as [Hocc Hleast].
    apply (@scanned_from i j); [| |exact Hj|exact Hfree].
    + constructor. split; assumption.
    + destruct (Nat.le_gt_cases i j) as [H|H]; [exact H|].
      exfalso. exact (Hleast j H Hj).
  - exfalso. exact (Index_whole_none pat_nonempty Hidx Hj).
Qed.

End Scan.

(** ** The two loops as instances of the scan *)

(** The test [hasFilter] applies to the occurrence at [idx]. *)
Definition hasFilter_check (query prefix : string) (idx : nat) : res bool :=
  if idx =? 0 then
    if idx + length prefix <? length query then
      c <- byte_at query (idx + length prefix) ;;
      Ok (negb (unicode.IsSpace (rune_of_byte c)))
    else Ok false
  else
    b <- byte_at query (idx - 1) ;;
    let prevChar := rune_of_byte b in
    if unicode.IsSpace prevChar
       || (negb (unicode.IsLetter prevChar)
           && negb (unicode.IsDigit prevChar)
           && negb (prevChar =? underscore)%Z)
    then
      if idx + length prefix <? length query then
        c <- byte_at query (idx + length prefix) ;;
        Ok (negb (unicode.IsSpace (rune_of_byte c)))
      else Ok false
    else Ok false.

(** The test [hasSpecificFilter] applies to the occurrence at [idx]. *)
Definition hasSpecificFilter_check (query target : string) (idx : nat)
  : res bool :=
  validStart <-
    (if idx =? 0 then Ok true
     else
       b <- byte_at query (idx - 1) ;;
       let prevChar := rune_of_byte b in
       Ok (unicode.IsSpace prevChar
           || (negb (unicode.IsLetter prevChar)
               && negb (unicode.IsDigit prevChar)
               && negb (prevChar =? underscore)%Z))) ;;
  if validStart then
    let endIdx := idx + length target in
    if endIdx =? length query then Ok true
    else
      b <- byte_at query endIdx ;;
      let nextChar := rune_of_byte b in
      Ok (unicode.IsSpace nextChar
          || (negb (unicode.IsLetter nextChar)
              && negb (unicode.IsDigit nextChar)
              && negb (nextChar =? underscore)%Z))
  else Ok false.

(** What the two tests decide, in the words of the boundary rules. *)
Definition filter_ok (query prefix : string) (i : nat) : bool :=
  valid_start query i && has_value query (i + length prefix).

Definition specific_ok (query target : string) (i : nat) : bool :=
  valid_start query i && valid_end query (i + length target).

Ltac case_bind :=
  match goal with
  | |- bind ?x _ = bind ?x _ => destruct x as [?| |]; simpl; try reflexivity
  | |- (if ?b then _ else _) = (if ?b then _ else _) =>
      destruct b; try reflexivity
  | |- match ?o with Some _ => _ | None => _ end
       = match ?o with Some _ => _ | None => _ end =>
      destruct o; try reflexivity
  end.

Lemma hasFilter_loop_scan (fuel : nat) (query prefix : string) (idx : nat) :
  hasFilter_loop fuel query prefix idx
  = scan_loop query prefix (hasFilter_check query prefix) fuel idx.
Proof.
  revert idx; induction fuel as [|fuel IH]; intros idx; [reflexivity|].
  cbn [hasFilter_loop scan_loop]. fold (hasFilter_check query prefix idx).
  repeat case_bind. apply IH.
Qed.

Lemma hasSpecificFilter_loop_scan (fuel : nat) (query target : string)
  (idx : nat) :
  hasSpecificFilter_loop fuel query target idx
  = scan_loop query target (hasSpecificFilter_check query target) fuel idx.
Proof.
  revert idx; induction fuel as [|fuel IH]; intros idx; [reflexivity|].
  cbn [hasSpecificFilter_loop scan_loop]. unfold hasSpecificFilter_check.
  destruct (if idx =? 0 then _ else _) as [[|]| |]; simpl; try reflexivity.
  - repeat case_bind. apply IH.
  - repeat case_bind. apply IH.
Qed.

Lemma hasFilter_fuel_scan (fuel : nat) (query filterType : string) :
  hasFilter_fuel fuel query filterType
  = scan query (filterType ++ ":") (hasFilter_check query (filterType ++ ":"))
      fuel.
Proof.
  unfold hasFilter_fuel, scan. case_bind. apply hasFilter_loop_scan.
Qed.

Lemma hasSpecificFilter_fuel_scan (fuel : nat)
  (query filterType filterValue : string) :
  hasSpecificFilter_fuel fuel query filterType filterValue
  = scan query (filterType ++ ":" ++ filterValue)
      (hasSpecificFilter_check query (filterType ++ ":" ++ filterValue)) fuel.
Proof.
  unfold hasSpecificFilter_fuel, scan. case_bind.
  apply hasSpecificFilter_loop_scan.
Qed.

(** The condition of the source, [IsSpace(c) || (!IsLetter(c) &&
    !IsDigit(c) && c != '_')], is "whitespace or not a word character". *)
Lemma boundary_test (b : ascii) :
  unicode.IsSpace (rune_of_byte b)
  || (negb (unicode.IsLetter (rune_of_byte b))
      && negb (unicode.IsDigit (rune_of_byte b))
      && negb (rune_of_byte b =? underscore)%Z)
  = is_space b || negb (is_word_char b).
Proof.
  unfold is_space, is_word_char.
  destruct (unicode.IsSpace _), (unicode.IsLetter _), (unicode.IsDigit _),
    (_ =? _)%Z; reflexivity.
Qed.

Lemma byte_at_some (s : string) (i : nat) (c : ascii) :
  get i s = Some c -> byte_at s i = Ok c.
Proof. unfold byte_at. now intros ->. Qed.

Lemma hasFilter_check_ok (query prefix : string) (i : nat) :
  prefix <> "" -> occurs_at prefix query i ->
  hasFilter_check query prefix i = Ok (filter_ok query prefix i).
Proof.
  intros Hne Hocc. pose proof (occurs_at_bound Hne Hocc) as Hb.
  pose proof (nonempty_length Hne) as Hl.
  assert (Hval : (if i + length prefix <? length query
                  then c <- byte_at query (i + length prefix) ;;
                       Ok (negb (unicode.IsSpace (rune_of_byte c)))
                  else Ok false)
                 = Ok (has_value query (i + length prefix))).
  { unfold has_value. destruct (i + length prefix <? length query) eqn:Hlt.
    - apply Nat.ltb_lt in Hlt. destruct (get_some query Hlt) as [c Hc].
      rewrite (byte_at_some _ _ Hc), Hc. reflexivity.
    - apply Nat.ltb_ge in Hlt. now rewrite (get_none query Hlt). }
  unfold hasFilter_check, filter_ok.
  remember (i + length prefix) as e eqn:He. destruct i as [|j].
  - simpl (0 =? 0). cbv iota. rewrite Hval. reflexivity.
  - simpl (S j =? 0). cbv iota.
    replace (S j - 1) with j by lia.
    destruct (@get_some query j) as [b Hbj]; [lia|].
    rewrite (byte_at_some _ _ Hbj). simpl bind.
    unfold valid_start. rewrite Hbj, boundary_test.
    destruct (is_space b || negb (is_word_char b)); [|reflexivity].
    rewrite Hval. reflexivity.
Qed.

Lemma hasSpecificFilter_check_ok (query target : string) (i : nat) :
  target <> "" -> occurs_at target query i ->
  hasSpecificFilter_check query target i = Ok (specific_ok query target i).
Proof.
  intros Hne Hocc. pose proof (occurs_at_bound Hne Hocc) as Hb.
  pose proof (nonempty_length Hne) as Hl.
  assert (Hend : (if i + length target =? length query then Ok true
                  else b <- byte_at query (i + length target) ;;
                       Ok (unicode.IsSpace (rune_of_byte b)
                           || (negb (unicode.IsLetter (rune_of_byte b))
                               && negb (unicode.IsDigit (rune_of_byte b))
                               && negb (rune_of_byte b =? underscore)%Z)))
                 = Ok (valid_end query (i + length target))).
  { unfold valid_end. destruct (i + length target =? length query) eqn:He.
    - reflexivity.
    - apply Nat.eqb_neq in He.
      destruct (@get_some query (i + length target)) as [b Hbj]; [lia|].
      rewrite (byte_at_some _ _ Hbj), Hbj. simpl. now rewrite boundary_test. }
  unfold hasSpecificFilter_check, specific_ok.
  remember (i + length target) as e eqn:He. destruct i as [|j].
  - simpl (0 =? 0). cbv iota. simpl bind. cbv zeta. rewrite Hend. reflexivity.
  - simpl (S j =? 0). cbv iota.
    replace (S j - 1) with j by lia.
    destruct (@get_some query j) as [b Hbj]; [lia|].
    rewrite (byte_at_some _ _ Hbj). simpl bind. cbv zeta.
    unfold valid_start. rewrite Hbj, boundary_test.
    destruct (is_space b || negb (is_word_char b)); [|reflexivity].
    rewrite Hend. reflexivity.
Qed.

(** ** What each function returns *)

Lemma prefix_nonempty (filterType : string) : filterType ++ ":" <> "".
Proof. destruct filterType; discriminate. Qed.

Lemma target_nonempty (filterType filterValue : string) :
  filterType ++ ":" ++ filterValue <> "".
Proof. destruct filterType; discriminate. Qed.

Lemma hasFilter_fuel_spec (fuel : nat) (query filterType : string) :
  length query <= fuel ->
  exists b, hasFilter_fuel fuel query filterType = Ok b
            /\ (b = true <->
                exists j, scanned query (filterType ++ ":") j
                          /\ filter_ok query (filterType ++ ":") j = true).
Proof.
  intros Hfuel. rewrite hasFilter_fuel_scan.
  apply scan_spec; [apply prefix_nonempty | | exact Hfuel].
  intros i Hocc. apply hasFilter_check_ok; [apply prefix_nonempty | exact Hocc].
Qed.

Lemma hasSpecificFilter_fuel_spec (fuel : nat)
  (query filterType filterValue : string) :
  length query <= fuel ->
  exists b, hasSpecificFilter_fuel fuel query filterType filterValue = Ok b
            /\ (b = true <->
                exists j, scanned query (filterType ++ ":" ++ filterValue) j
                          /\ specific_ok query
                               (filterType ++ ":" ++ filterValue) j = true).
Proof.
  intros Hfuel. rewrite hasSpecificFilter_fuel_scan.
  apply scan_spec; [apply target_nonempty | | exact Hfuel].
  intros i Hocc.
  apply hasSpecificFilter_check_ok; [apply target_nonempty | exact Hocc].
Qed.

Lemma hasFilter_true_iff (query filterType : string) :
  hasFilter query filterType = Ok true <->
  exists j, scanned query (filterType ++ ":") j
            /\ filter_ok query (filterType ++ ":") j = true.
Proof.
  destruct (@hasFilter_fuel_spec (length query) query filterType (le_n _))
    as (b & Hrun & Hiff).
  unfold hasFilter. rewrite Hrun, <- Hiff.
  split; [now intros [= ->] | now intros ->].
Qed.

Lemma hasFilter_false_iff (query filterType : string) :
  hasFilter query filterType = Ok false <->
  ~ exists j, scanned query (filterType ++ ":") j
              /\ filter_ok query (filterType ++ ":") j = true.
Proof.
  destruct (@hasFilter_fuel_spec (length query) query filterType (le_n _))
    as (b & Hrun & Hiff).
  unfold hasFilter. rewrite Hrun, <- Hiff.
  destruct b; split; congruence.
Qed.

Lemma hasSpecificFilter_true_iff (query filterType filterValue : string) :
  hasSpecificFilter query filterType filterValue = Ok true <->
  exists j, scanned query (filterType ++ ":" ++ filterValue) j
            /\ specific_ok query (filterType ++ ":" ++ filterValue) j = true.
Proof.
  destruct (@hasSpecificFilter_fuel_spec (length query) query filterType
              filterValue (le_n _)) as (b & Hrun & Hiff).
  unfold hasSpecificFilter. rewrite Hrun, <- Hiff.
  split; [now intros [= ->] | now intros ->].
Qed.

Lemma hasSpecificFilter_false_iff (query filterType filterValue : string) :
  hasSpecificFilter query filterType filterValue = Ok false <->
  ~ exists j, scanned query (filterType ++ ":" ++ filterValue) j
              /\ specific_ok query (filterType ++ ":" ++ filterValue) j = true.
Proof.
  destruct (@hasSpecificFilter_fuel_spec (length query) query filterType
              filterValue (le_n _)) as (b & Hrun & Hiff).
  unfold hasSpecificFilter. rewrite Hrun, <- Hiff.
  destruct b; split; congruence.
Qed.

(** ** Colon-free keys: occurrences of [key:] never overlap *)

Lemma colon_free_get (s : string) (n : nat) :
  colon_free s = true -> get n s <> Some ":"%char.
Proof.
  revert n; induction s as [|c s IH]; simpl; intros n H; [discriminate|].
  apply andb_true_iff in H. destruct H as [Hc Hs].
  destruct n as [|n]; [|now apply IH].
  intros [= ->]. now rewrite Ascii.eqb_refl in Hc.
Qed.

Lemma prefix_no_overlap (query filterType : string) (i j : nat) :
  colon_free filterType = true ->
  occurs_at (filterType ++ ":") query i ->
  occurs_at (filterType ++ ":") query j ->
  i < j -> i + length (filterType ++ ":") <= j.
Proof.
  intros Hcf Hi Hj Hlt.
  destruct (Nat.le_gt_cases (i + length (filterType ++ ":")) j) as [H|H];
    [exact H | exfalso].
  rewrite length_app in H. simpl in H.
  assert (Hcolon : get (i + length filterType) query = Some ":"%char).
  { rewrite (occurs_at_get (p := length filterType) Hi)
      by (rewrite length_app; simpl; lia).
    exact (eq_sym (append_correct2 filterType ":" 0)). }
  set (p := i + length filterType - j).
  assert (Hp : p < length filterType) by (unfold p; lia).
  assert (Hq : get (j + p) query = get p filterType).
  { rewrite (occurs_at_get (p := p) Hj) by (rewrite length_app; simpl; lia).
    symmetry. now apply append_correct1. }
  replace (j + p) with (i + length filterType) in Hq by (unfold p; lia).
  rewrite Hcolon in Hq. symmetry in Hq.
  exact (colon_free_get _ _ Hcf Hq).
Qed.

(** So the scan of a colon-free key visits every occurrence. *)
Lemma prefix_scanned (query filterType : string) (j : nat) :
  colon_free filterType = true ->
  occurs_at (filterType ++ ":") query j ->
  scanned query (filterType ++ ":") j.
Proof.
  intros Hcf Hj.
  apply scanned_of_no_overlap; [apply prefix_nonempty | exact Hj |].
  intros k Hk Hlt. exact (@prefix_no_overlap query filterType k j Hcf Hk Hj Hlt).
Qed.

(** ** The boundary rules, as the specification words them *)

(** An occurrence of [filterType:] at [i] with a valid filter start and
    some value attached. *)
Definition valid_filter_occurrence (query filterType : string) (i : nat)
  : Prop :=
  occurs_at (filterType ++ ":") query i
  /\ valid_start query i = true
  /\ has_value query (i + length (filterType ++ ":")) = true.

(** An occurrence of [filterType:filterValue] at [i] with a valid start
    and a valid end. *)
Definition valid_pair_occurrence (query filterType filterValue : string)
  (i : nat) : Prop :=
  occurs_at (filterType ++ ":" ++ filterValue) query i
  /\ valid_start query i = true
  /\ valid_end query (i + length (filterType ++ ":" ++ filterValue)) = true.

(** No occurrence of [pat] that starts before [i] reaches into offset [i]. *)
Definition no_earlier_overlap (pat query : string) (i : nat) : bool :=
  forallb (fun k => negb (occurs_atb pat query k) || (k + length pat <=? i))
    (seq 0 i).

Lemma no_earlier_overlap_spec (pat query : string) (i : nat) :
  no_earlier_overlap pat query i = true ->
  forall k, occurs_at pat query k -> k < i -> k + length pat <= i.
Proof.
  unfold no_earlier_overlap. rewrite forallb_forall. intros H k Hk Hlt.
  assert (Hin : In k (seq 0 i)) by (apply in_seq; lia).
  specialize (H k Hin). apply orb_true_iff in H. destruct H as [H|H].
  - apply occurs_atb_spec in Hk. rewrite Hk in H. discriminate.
  - now apply Nat.leb_le.
Qed.

Lemma filter_ok_iff (query filterType : string) (i : nat) :
  occurs_at (filterType ++ ":") query i
  /\ filter_ok query (filterType ++ ":") i = true
  <-> valid_filter_occurrence query filterType i.
Proof.
  unfold valid_filter_occurrence, filter_ok.
  rewrite andb_true_iff. tauto.
Qed.

Lemma specific_ok_iff (query filterType filterValue : string) (i : nat) :
  occurs_at (filterType ++ ":" ++ filterValue) query i
  /\ specific_ok query (filterType ++ ":" ++ filterValue) i = true
  <-> valid_pair_occurrence query filterType filterValue i.
Proof.
  unfold valid_pair_occurrence, specific_ok.
  rewrite andb_true_iff. tauto.
Qed.

(** For a colon-free key, [hasFilter] finds every valid occurrence. *)
Lemma hasFilter_true_iff_occurrence (query filterType : string) :
  colon_free filterType = true ->
  hasFilter query filterType = Ok true
  <-> exists i, valid_filter_occurrence query filterType i.
Proof.
  intros Hcf. rewrite hasFilter_true_iff. split.
  - intros (j & Hs & Hok). exists j. apply filter_ok_iff.
    split; [exact (scanned_occurs Hs) | exact Hok].
  - intros (i & Hi). apply filter_ok_iff in Hi. destruct Hi as [Hocc Hok].
    exists i. split; [exact (prefix_scanned _ Hcf Hocc) | exact Hok].
Qed.

Lemma hasFilter_total (query filterType : string) :
  hasFilter query filterType = Ok true \/ hasFilter query filterType = Ok false.
Proof.
  destruct (@hasFilter_fuel_spec (length query) query filterType (le_n _))
    as ([|] & Hrun & _); [left | right]; exact Hrun.
Qed.

Lemma hasSpecificFilter_total (query filterType filterValue : string) :
  hasSpecificFilter query filterType filterValue = Ok true
  \/ hasSpecificFilter query filterType filterValue = Ok false.
Proof.
  destruct (@hasSpecificFilter_fuel_spec (length query) query filterType
              filterValue (le_n _)) as ([|] & Hrun & _);
    [left | right]; exact Hrun.
Qed.

Lemma hasSpecificFilter_sound (query filterType filterValue : string) :
  hasSpecificFilter query filterType filterValue = Ok true ->
  exists i, valid_pair_occurrence query filterType filterValue i.
Proof.
  rewrite hasSpecificFilter_true_iff. intros (j & Hs & Hok).
  exists j. apply specific_ok_iff.
  split; [exact (scanned_occurs Hs) | exact Hok].
Qed.

Lemma hasSpecificFilter_complete (query filterType filterValue : string)
  (i : nat) :
  valid_pair_occurrence query filterType filterValue i ->
  no_earlier_overlap (filterType ++ ":" ++ filterValue) query i = true ->
  hasSpecificFilter query filterType filterValue = Ok true.
Proof.
  intros Hi Hfree. apply specific_ok_iff in Hi. destruct Hi as [Hocc Hok].
  apply hasSpecificFilter_true_iff. exists i. split; [|exact Hok].
  apply scanned_of_no_overlap; [apply target_nonempty | exact Hocc |].
  intros k Hk Hlt. eapply no_earlier_overlap_spec; eassumption.
Qed.

(** * The claims *)



(** C2.  The claim: [hasSpecificFilter] returns true if and only if some
    occurrence of [filterType:filterValue] has a valid start and a valid
    end, overlapping occurrences included.  The code at the failing input:
    in ["xa:-a:-a"] the pair [a:-a] occurs at offset 4 after the non-word
    character [-] and ends the string, but it starts inside the rejected
    occurrence at offset 1, after which the search resumes at offset 5;
    [hasSpecificFilter] returns false. *)
Lemma hasSpecificFilter_skips_overlapping_occurrence :
  "a" <> "" /\ colon_free "a" = true /\ "-a" <> ""
  /\ valid_pair_occurrence "xa:-a:-a" "a" "-a" 4
  /\ hasSpecificFilter "xa:-a:-a" "a" "-a" = Ok false
  /\ ~ (hasSpecificFilter "xa:-a:-a" "a" "-a" = Ok true
        <-> exists i, valid_pair_occurrence "xa:-a:-a" "a" "-a" i).
Proof.
  assert (Hocc : valid_pair_occurrence "xa:-a:-a" "a" "-a" 4)
    by (repeat split; reflexivity).
  split; [discriminate|]. split; [reflexivity|]. split; [discriminate|].
  split; [exact Hocc|]. split; [reflexivity|].
  intros [_ H]. assert (Hex : exists i, valid_pair_occurrence "xa:-a:-a" "a" "-a" i)
    by (exists 4; exact Hocc).
  specialize (H Hex). discriminate H.
Qed.

(** C3.  The claim: when one of several occurrences of the target
    satisfies the boundary rules, the scanner returns true even if every
    earlier occurrence fails them.  The code at the failing input: in
    ["yis:x is:x is:x"] the pair [is:x is:x] occurs at offset 1, where the
    preceding [y] breaks the start rule, and at offset 6, where both rules
    hold; the second occurrence overlaps the first and is never tested, so
    [hasSpecificFilter] returns false. *)
Lemma later_overlapping_occurrence_missed :
  occurs_at ("is" ++ ":" ++ "x is:x") "yis:x is:x is:x" 1
  /\ valid_start "yis:x is:x is:x" 1 = false
  /\ valid_pair_occurrence "yis:x is:x is:x" "is" "x is:x" 6
  /\ hasSpecificFilter "yis:x is:x is:x" "is" "x is:x" = Ok false.
Proof. repeat split; reflexivity. Qed.

(** ** Rejected occurrences *)











(** ** Termination and fuel *)

Lemma hasFilter_fuel_enough (fuel : nat) (query filterType : string) :
  length query <= fuel ->
  hasFilter_fuel fuel query filterType = hasFilter query filterType.
Proof.
  intros Hfuel. unfold hasFilter.
  destruct (@hasFilter_fuel_spec fuel query filterType Hfuel)
    as (b1 & H1 & Hiff1).
  destruct (@hasFilter_fuel_spec (length query) query filterType (le_n _))
    as (b2 & H2 & Hiff2).
  rewrite H1, H2. f_equal.
  destruct b1, b2; try reflexivity.
  - symmetry. apply Hiff2, Hiff1. reflexivity.
  - apply Hiff1, Hiff2. reflexivity.
Qed.

Lemma hasSpecificFilter_fuel_enough (fuel : nat)
  (query filterType filterValue : string) :
  length query <= fuel ->
  hasSpecificFilter_fuel fuel query filterType filterValue
  = hasSpecificFilter query filterType filterValue.
Proof.
  intros Hfuel. unfold hasSpecificFilter.
  destruct (@hasSpecificFilter_fuel_spec fuel query filterType filterValue
              Hfuel) as (b1 & H1 & Hiff1).
  destruct (@hasSpecificFilter_fuel_spec (length query) query filterType
              filterValue (le_n _)) as (b2 & H2 & Hiff2).
  rewrite H1, H2. f_equal.
  destruct b1, b2; try reflexivity.
  - symmetry. apply Hiff2, Hiff1. reflexivity.
  - apply Hiff1, Hiff2. reflexivity.
Qed.

(** C7.  Both scanners are total: for every triple of input strings,
    degenerate ones included, each call returns a boolean and never
    panics, whatever iteration budget at least [len(query)] the model is
    given; every further round of the loop starts strictly to the right of
    the previous one, so the loop cannot run forever. *)
Theorem scanners_total (query filterType filterValue : string) :
  (exists b, hasFilter query filterType = Ok b
             /\ forall extra,
                 hasFilter_fuel (length query + extra) query filterType = Ok b)
  /\ (exists b, hasSpecificFilter query filterType filterValue = Ok b
                /\ forall extra,
                    hasSpecificFilter_fuel (length query + extra) query
                      filterType filterValue = Ok b)
  /\ (forall idx nextIdx,
         idx < idx + length (filterType ++ ":") + nextIdx
         /\ idx < idx + length (filterType ++ ":" ++ filterValue) + nextIdx)
  /\ hasFilter "" "" = Ok false
  /\ hasSpecificFilter "" "" "" = Ok false
  /\ hasSpecificFilter ":" "" "" = Ok true.
Proof.
  split; [|split; [|split; [|repeat split; reflexivity]]].
  - destruct (hasFilter_total query filterType) as [H|H];
      [exists true | exists false]; (split; [exact H|]);
      intros extra; rewrite hasFilter_fuel_enough by lia; exact H.
  - destruct (hasSpecificFilter_total query filterType filterValue) as [H|H];
      [exists true | exists false]; (split; [exact H|]);
      intros extra; rewrite hasSpecificFilter_fuel_enough by lia; exact H.
  - intros idx nextIdx.
    pose proof (nonempty_length (@prefix_nonempty filterType)).
    pose proof (nonempty_length (@target_nonempty filterType filterValue)).
    lia.
Qed.

(** ** Multi-byte characters

    Go source text and string literals are UTF-8: a character above
    U+007F reaches the scanners as two to four bytes, each of which the
    boundary tests classify on its own. *)

Module utf8.

Local Open Scope Z_scope.

Definition RuneError : rune := 0xFFFD.

(** [byte(x)]: the low eight bits. *)
Definition byte_of (x : Z) : ascii := ascii_of_N (Z.to_N (Z.land x 0xFF)).

(** A continuation byte carrying six bits of [x]. *)
Definition cont (x : Z) : ascii := byte_of (Z.lor 0x80 (Z.land x 0x3F)).

Definition encode3 (r : rune) : string :=
  String (byte_of (Z.lor 0xE0 (Z.shiftr r 12)))
    (String (cont (Z.shiftr r 6)) (String (cont r) "")).

(** [utf8.EncodeRune]: the UTF-8 encoding of a rune; negative, surrogate
    and too large values are encoded as [RuneError]. *)
Definition EncodeRune (r : rune) : string :=
  if (0 <=? r) && (r <=? 0x7F) then String (byte_of r) ""
  else if (0 <=? r) && (r <=? 0x7FF) then
    String (byte_of (Z.lor 0xC0 (Z.shiftr r 6))) (String (cont r) "")
  else if (r <? 0) || (0x10FFFF <? r) || ((0xD800 <=? r) && (r <=? 0xDFFF))
  then encode3 RuneError
  else if r <=? 0xFFFF then encode3 r
  else
    String (byte_of (Z.lor 0xF0 (Z.shiftr r 18)))
      (String (cont (Z.shiftr r 12))
         (String (cont (Z.shiftr r 6)) (String (cont r) ""))).

End utf8.

(** The whitespace runes above U+007F. *)
Definition multibyte_spaces : list rune :=
  [0x85; 0xA0; 0x1680; 0x2000; 0x2001; 0x2002; 0x2003; 0x2004; 0x2005;
   0x2006; 0x2007; 0x2008; 0x2009; 0x200a; 0x2028; 0x2029; 0x202f; 0x205f;
   0x3000]%Z.

Lemma rune_of_byte_Latin1 (b : ascii) :
  (0 <= rune_of_byte b <= unicode.MaxLatin1)%Z.
Proof.
  destruct b as [[|] [|] [|] [|] [|] [|] [|] [|]];
    vm_compute; split; discriminate.
Qed.

Lemma IsSpace_multibyte (r : rune) :
  (0x80 <= r)%Z -> unicode.IsSpace r = true -> In r multibyte_spaces.
Proof.
  intros Hr H. unfold unicode.IsSpace in H.
  destruct (unicode.isLatin1 r) eqn:Hl.
  - unfold unicode.isLatin1, unicode.MaxLatin1 in Hl.
    rewrite ?orb_true_iff, ?Z.eqb_eq in H. simpl. lia.
  - unfold unicode.White_Space_above_Latin1, unicode.between in H.
    rewrite ?orb_true_iff, ?andb_true_iff, ?Z.eqb_eq, ?Z.leb_le in H.
    simpl. lia.
Qed.

Lemma multibyte_spaces_carry_value :
  forallb (fun r =>
             match hasFilter ("is:" ++ utf8.EncodeRune r) "is" with
             | Ok true => true
             | _ => false
             end) multibyte_spaces = true.
Proof. vm_compute. reflexivity. Qed.

(** ** A matched pair contains a matched key *)

Lemma occurs_at_of_get (pat q : string) (i : nat) :
  (forall p, p < length pat -> get (i + p) q = get p pat) ->
  occurs_at pat q i.
Proof.
  intros H. unfold occurs_at. apply get_correct. intros n.
  destruct (Nat.lt_ge_cases n (length pat)) as [Hlt|Hge].
  - rewrite substring_correct1 by exact Hlt.
    rewrite Nat.add_comm. now apply H.
  - rewrite substring_correct2 by exact Hge.
    symmetry. now apply get_none.
Qed.

Lemma occurs_at_app_l (a b q : string) (i : nat) :
  occurs_at (a ++ b) q i -> occurs_at a q i.
Proof.
  intros Hocc. apply occurs_at_of_get. intros p Hp.
  rewrite (occurs_at_get (p := p) Hocc) by (rewrite length_app; lia).
  symmetry. now apply append_correct1.
Qed.

Lemma occurs_at_app_first (a b q : string) (i : nat) (c : ascii) :
  occurs_at (a ++ b) q i -> get 0 b = Some c ->
  get (i + length a) q = Some c.
Proof.
  intros Hocc Hc. pose proof (get_lt _ _ Hc) as Hb.
  rewrite (occurs_at_get (p := length a) Hocc) by (rewrite length_app; lia).
  rewrite <- Hc. exact (eq_sym (append_correct2 a b 0)).
Qed.

Lemma app_assoc_string (a b c : string) : (a ++ b) ++ c = a ++ b ++ c.
Proof. induction a as [|x a IH]; simpl; [reflexivity | now rewrite IH]. Qed.

(** C10.  For every query, non-empty colon-free [filterType] and
    non-empty [filterValue] whose first character is not whitespace, a
    true answer of [hasSpecificFilter] implies a true answer of
    [hasFilter]: the matched occurrence of the pair starts with an
    occurrence of [filterType ++ ":"] at the same valid start, followed by
    the first character of the value. *)
Theorem hasSpecificFilter_implies_hasFilter
  (query filterType filterValue : string) (c : ascii) :
  filterType <> "" ->
  colon_free filterType = true ->
  get 0 filterValue = Some c ->
  is_space c = false ->
  hasSpecificFilter query filterType filterValue = Ok true ->
  hasFilter query filterType = Ok true.
Proof.
  intros _ Hcf Hfirst Hsp Htrue.
  destruct (hasSpecificFilter_sound _ _ _ Htrue) as (i & Hocc & Hstart & _).
  rewrite <- app_assoc_string in Hocc.
  apply (@hasFilter_true_iff_occurrence query filterType Hcf).
  exists i. split; [eapply occurs_at_app_l; exact Hocc|].
  split; [exact Hstart|].
  unfold has_value.
  erewrite occurs_at_app_first by eassumption. rewrite Hsp. reflexivity.
Qed.

Lemma hasSpecificFilter_implies_hasFilter_witness :
  "is" <> "" /\ colon_free "is" = true
  /\ get 0 "issue" = Some "i"%char /\ is_space "i" = false
  /\ hasSpecificFilter "repo:a/b is:issue" "is" "issue" = Ok true
  /\ hasFilter "repo:a/b is:issue" "is" = Ok true.
Proof.
  assert (Hne : "is" <> "") by discriminate.
  split; [exact Hne|]. do 4 (split; [reflexivity|]).
  exact (@hasSpecificFilter_implies_hasFilter
           "repo:a/b is:issue" "is" "issue" "i"%char
           Hne eq_refl eq_refl eq_refl eq_refl).
Defined.

Unset Implicit Arguments.

(** * The query rewriting of [searchHandler]

    Before it calls the search API, [searchHandler] puts default filters
    in front of the query: [is:<searchType>] unless
    [hasSpecificFilter] finds that pair, and [repo:<owner>/<repo>] when
    both parameters are non-empty and [hasRepoFilter] finds no repo
    filter.  The model takes the parameters as already read from the
    argument map and returns the query that is sent. *)

Definition searchHandler_query (query searchType owner repo : string)
  : res string :=
  isPresent <- hasSpecificFilter query "is" searchType ;;
  let query :=
    if negb isPresent then "is:" ++ searchType ++ " " ++ query else query in
  if negb (owner =? "")%string && negb (repo =? "")%string then
    repoPresent <- hasRepoFilter query ;;
    if negb repoPresent
    then Ok ("repo:" ++ owner ++ "/" ++ repo ++ " " ++ query)
    else Ok query
  else Ok query.

Example searchHandler_query_defaults :
  searchHandler_query "crash on start" "issue" "github" "github-mcp-server"
  = Ok "repo:github/github-mcp-server is:issue crash on start".
Proof. reflexivity. Qed.

Example searchHandler_query_keeps :
  searchHandler_query "repo:a/b is:pr fix" "pr" "github" "github-mcp-server"
  = Ok "repo:a/b is:pr fix".
Proof. reflexivity. Qed.

(** A boundary byte: whitespace, or no word character. *)
Definition is_boundary (b : ascii) : bool := is_space b || negb (is_word_char b).

(** The byte [c] does not occur in [s]. *)
Fixpoint excludes (c : ascii) (s : string) : bool :=
  match s with
  | EmptyString => true
  | String x s' => negb (Ascii.eqb x c) && excludes c s'
  end.

(** ** Occurrences under concatenation *)

Section Concatenation.

Variables pat p q : string.

Lemma substring_app_shift (m l : nat) :
  substring (length p + m) l (p ++ q) = substring m l q.
Proof. induction p as [|c p' IH]; simpl; [reflexivity | exact IH]. Qed.

Lemma occurs_at_app_shift (m : nat) :
  occurs_at pat (p ++ q) (length p + m) <-> occurs_at pat q m.
Proof. unfold occurs_at. now rewrite substring_app_shift. Qed.

Lemma get_app_shift (m : nat) : get (length p + m) (p ++ q) = get m q.
Proof. rewrite Nat.add_comm. symmetry. apply append_correct2. Qed.

Lemma get_app_l (m : nat) : m < length p -> get m (p ++ q) = get m p.
Proof. intros H. symmetry. now apply append_correct1. Qed.

(** An offset whose window lies inside the left part sees the same
    bytes with or without the right part. *)
Lemma occurs_at_app_l_iff (m : nat) :
  m + length pat <= length p ->
  occurs_at pat (p ++ q) m <-> occurs_at pat p m.
Proof.
  intros Hm. split; intros Hocc; apply occurs_at_of_get; intros k Hk.
  - rewrite <- (occurs_at_get (p := k) Hocc) by exact Hk.
    symmetry. apply get_app_l. lia.
  - rewrite <- (occurs_at_get (p := k) Hocc) by exact Hk.
    apply get_app_l. lia.
Qed.

Lemma excludes_get (c : ascii) (s : string) (n : nat) :
  excludes c s = true -> get n s <> Some c.
Proof.
  revert n; induction s as [|x s IH]; simpl; intros n H; [discriminate|].
  apply andb_true_iff in H. destruct H as [Hx Hs].
  destruct n as [|n]; [|now apply IH].
  intros [= ->]. now rewrite Ascii.eqb_refl in Hx.
Qed.

End Concatenation.

(** ** The visited offsets under concatenation *)

Lemma length_app_byte (p : string) (c : ascii) :
  length (p ++ String c "") = S (length p).
Proof. rewrite length_app. simpl. lia. Qed.

Lemma get_last_byte (p q : string) (c : ascii) :
  get (length p) ((p ++ String c "") ++ q) = Some c.
Proof.
  rewrite get_app_l by (rewrite length_app_byte; lia).
  exact (eq_sym (append_correct2 p (String c "") 0)).
Qed.

(** When the left part ends in a byte that the pattern does not contain,
    no occurrence reaches across the seam. *)
Lemma no_straddle (pat p q : string) (c : ascii) (k : nat) :
  excludes c pat = true ->
  occurs_at pat ((p ++ String c "") ++ q) k ->
  k < length (p ++ String c "") ->
  k + length pat <= length (p ++ String c "").
Proof.
  intros Hex Hocc Hk. rewrite length_app_byte in *.
  destruct (Nat.le_gt_cases (k + length pat) (S (length p))) as [H|H];
    [exact H | exfalso].
  assert (Hget : get (k + (length p - k)) ((p ++ String c "") ++ q)
                 = get (length p - k) pat)
    by (apply (occurs_at_get (p := length p - k) Hocc); lia).
  replace (k + (length p - k)) with (length p) in Hget by lia.
  rewrite get_last_byte in Hget. symmetry in Hget.
  eapply excludes_get; eassumption.
Qed.

Lemma scanned_prepend (pat p q : string) :
  pat <> "" ->
  (forall k, occurs_at pat (p ++ q) k -> k < length p ->
             k + length pat <= length p) ->
  forall i, scanned q pat i -> scanned (p ++ q) pat (length p + i).
Proof.
  intros Hne Hseam i Hs.
  induction Hs as [i [Hocc Hleast] | i j _ IH (Hocc & Hij & Hleast)].
  - apply scanned_of_no_overlap; [exact Hne | now apply occurs_at_app_shift |].
    intros k Hk Hlt.
    destruct (Nat.lt_ge_cases k (length p)) as [Hin|Hout].
    + pose proof (Hseam k Hk Hin). lia.
    + exfalso. apply (Hleast (k - length p)); [lia|].
      apply (occurs_at_app_shift pat p q).
      now replace (length p + (k - length p)) with k by lia.
  - apply (scanned_next IH). split; [now apply occurs_at_app_shift|].
    split; [lia|].
    intros k Hlo Hhi Hk. apply (Hleast (k - length p)); [lia | lia |].
    apply (occurs_at_app_shift pat p q).
    now replace (length p + (k - length p)) with k by lia.
Qed.

Lemma scanned_append (pat q s : string) (i : nat) :
  pat <> "" -> scanned q pat i -> scanned (q ++ s) pat i.
Proof.
  intros Hne Hs.
  induction Hs as [i [Hocc Hleast] | i j Hsi IH (Hocc & Hij & Hleast)].
  - pose proof (occurs_at_bound Hne Hocc) as Hb.
    apply scanned_first. split.
    + apply occurs_at_app_l_iff; [exact Hb | exact Hocc].
    + intros k Hk Hocc'. apply (Hleast k Hk).
      apply (occurs_at_app_l_iff pat q s); [lia | exact Hocc'].
  - pose proof (occurs_at_bound Hne Hocc) as Hb.
    apply (scanned_next IH). split.
    + apply occurs_at_app_l_iff; [exact Hb | exact Hocc].
    + split; [exact Hij|].
      intros k Hlo Hhi Hocc'. apply (Hleast k Hlo Hhi).
      apply (occurs_at_app_l_iff pat q s); [lia | exact Hocc'].
Qed.

(** ** The boundary tests under concatenation *)

Lemma valid_start_prepend (p q : string) (c : ascii) (i : nat) :
  is_boundary c = true ->
  valid_start q i = true ->
  valid_start ((p ++ String c "") ++ q) (length (p ++ String c "") + i) = true.
Proof.
  intros Hc Hst. destruct i as [|j].
  - rewrite Nat.add_0_r, length_app_byte. simpl.
    rewrite get_last_byte. exact Hc.
  - rewrite Nat.add_succ_r. simpl. rewrite get_app_shift. exact Hst.
Qed.

Lemma valid_end_prepend (p q : string) (e : nat) :
  valid_end (p ++ q) (length p + e) = valid_end q e.
Proof.
  unfold valid_end. rewrite get_app_shift, length_app. f_equal.
  destruct (Nat.eqb_spec e (length q)) as [->|Hne];
    [apply Nat.eqb_refl | apply Nat.eqb_neq; lia].
Qed.

Lemma has_value_prepend (p q : string) (e : nat) :
  has_value (p ++ q) (length p + e) = has_value q e.
Proof. unfold has_value. now rewrite get_app_shift. Qed.

Lemma valid_start_append (q s : string) (i : nat) :
  valid_start q i = true -> valid_start (q ++ s) i = true.
Proof.
  destruct i as [|j]; simpl; [reflexivity|].
  destruct (get j q) as [b|] eqn:Hget; [|discriminate].
  rewrite get_app_l by exact (get_lt _ _ Hget). now rewrite Hget.
Qed.

Lemma has_value_append (q s : string) (e : nat) :
  has_value q e = true -> has_value (q ++ s) e = true.
Proof.
  unfold has_value.
  destruct (get e q) as [b|] eqn:Hget; [|discriminate].
  rewrite get_app_l by exact (get_lt _ _ Hget). now rewrite Hget.
Qed.

Lemma valid_end_append (q s : string) (c : ascii) (e : nat) :
  is_boundary c = true ->
  valid_end q e = true -> valid_end (q ++ String c s) e = true.
Proof.
  intros Hc. unfold valid_end. intros H. apply orb_true_iff. right.
  apply orb_true_iff in H. destruct H as [H|H].
  - apply Nat.eqb_eq in H. subst e.
    replace (length q) with (length q + 0) by lia.
    rewrite get_app_shift. exact Hc.
  - destruct (get e q) as [b|] eqn:Hget; [|discriminate].
    rewrite get_app_l by exact (get_lt _ _ Hget). now rewrite Hget.
Qed.

(** ** The defaults that [searchHandler] prepends *)

Lemma is_prefix_shape (searchType q : string) :
  "is:" ++ searchType ++ " " ++ q
  = (("is:" ++ searchType) ++ String " " "") ++ q.
Proof. rewrite !app_assoc_string. reflexivity. Qed.

Lemma repo_prefix_shape (owner repo q : string) :
  "repo:" ++ owner ++ "/" ++ repo ++ " " ++ q
  = (("repo:" ++ owner ++ "/" ++ repo) ++ String " " "") ++ q.
Proof. rewrite !app_assoc_string. reflexivity. Qed.

Lemma occurs_at_head (a b : string) : occurs_at a (a ++ b) 0.
Proof.
  apply occurs_at_app_l_iff; [simpl; lia|]. unfold occurs_at.
  apply substring_all.
Qed.

Lemma get_seam (a b : string) : get (length a) (a ++ b) = get 0 b.
Proof.
  pose proof (get_app_shift a b 0) as H. now rewrite Nat.add_0_r in H.
Qed.

(** The prepended [is:] default is always found, whatever the search
    type. *)
Lemma is_default_detected (searchType q : string) :
  hasSpecificFilter ("is:" ++ searchType ++ " " ++ q) "is" searchType
  = Ok true.
Proof.
  apply hasSpecificFilter_complete with (i := 0); [|reflexivity].
  change ("is:" ++ searchType ++ " " ++ q)
    with (("is" ++ ":" ++ searchType) ++ String " " q).
  unfold valid_pair_occurrence.
  generalize ("is" ++ ":" ++ searchType). intros a.
  split; [apply occurs_at_head|]. split; [reflexivity|].
  unfold valid_end. rewrite Nat.add_0_l, get_seam. simpl.
  apply orb_true_r.
Qed.

(** The prepended [repo:] default is found when the owner does not start
    with whitespace. *)
Lemma repo_default_detected (owner repo q : string) (c : ascii) :
  get 0 owner = Some c -> is_space c = false ->
  hasRepoFilter ("repo:" ++ owner ++ "/" ++ repo ++ " " ++ q) = Ok true.
Proof.
  intros Hc Hsp. unfold hasRepoFilter.
  apply (@hasFilter_true_iff_occurrence _ "repo" eq_refl).
  exists 0.
  change ("repo:" ++ owner ++ "/" ++ repo ++ " " ++ q)
    with (("repo" ++ ":") ++ owner ++ "/" ++ repo ++ " " ++ q).
  unfold valid_filter_occurrence.
  generalize ("repo" ++ ":"). intros a.
  split; [apply occurs_at_head|]. split; [reflexivity|].
  unfold has_value. rewrite Nat.add_0_l, get_seam.
  rewrite get_app_l by exact (get_lt _ _ Hc).
  now rewrite Hc, Hsp.
Qed.

(** ** Detected filters under concatenation *)

Lemma hasFilter_prepend_true (query filterType p : string) (c : ascii) :
  colon_free filterType = true ->
  is_boundary c = true ->
  hasFilter query filterType = Ok true ->
  hasFilter ((p ++ String c "") ++ query) filterType = Ok true.
Proof.
  intros Hcf Hc Htrue.
  apply (@hasFilter_true_iff_occurrence _ filterType Hcf).
  apply (@hasFilter_true_iff_occurrence query filterType Hcf) in Htrue.
  destruct Htrue as (i & Hocc & Hst & Hval).
  exists (length (p ++ String c "") + i). split; [|split].
  - now apply occurs_at_app_shift.
  - now apply valid_start_prepend.
  - rewrite <- Nat.add_assoc, has_value_prepend. exact Hval.
Qed.

Lemma hasFilter_append_true (query filterType s : string) :
  colon_free filterType = true ->
  hasFilter query filterType = Ok true ->
  hasFilter (query ++ s) filterType = Ok true.
Proof.
  intros Hcf Htrue.
  apply (@hasFilter_true_iff_occurrence _ filterType Hcf).
  apply (@hasFilter_true_iff_occurrence query filterType Hcf) in Htrue.
  destruct Htrue as (i & Hocc & Hst & Hval).
  exists i. split; [|split].
  - apply occurs_at_app_l_iff; [|exact Hocc].
    exact (occurs_at_bound (@prefix_nonempty filterType) Hocc).
  - now apply valid_start_append.
  - now apply has_value_append.
Qed.

Lemma hasSpecificFilter_prepend_true
  (query filterType filterValue p : string) (c : ascii) :
  is_boundary c = true ->
  excludes c (filterType ++ ":" ++ filterValue) = true ->
  hasSpecificFilter query filterType filterValue = Ok true ->
  hasSpecificFilter ((p ++ String c "") ++ query) filterType filterValue
  = Ok true.
Proof.
  intros Hc Hex Htrue.
  apply hasSpecificFilter_true_iff in Htrue.
  destruct Htrue as (j & Hs & Hok).
  apply hasSpecificFilter_true_iff.
  exists (length (p ++ String c "") + j). split.
  - apply scanned_prepend; [apply target_nonempty | | exact Hs].
    intros k Hk Hlt. eapply no_straddle; eassumption.
  - unfold specific_ok in *. apply andb_true_iff in Hok.
    destruct Hok as [Hst Hend]. apply andb_true_iff. split.
    + now apply valid_start_prepend.
    + rewrite <- Nat.add_assoc, valid_end_prepend. exact Hend.
Qed.

Lemma hasSpecificFilter_append_true
  (query filterType filterValue s : string) (d : ascii) :
  is_boundary d = true ->
  hasSpecificFilter query filterType filterValue = Ok true ->
  hasSpecificFilter (query ++ String d s) filterType filterValue = Ok true.
Proof.
  intros Hd Htrue.
  apply hasSpecificFilter_true_iff in Htrue.
  destruct Htrue as (j & Hs & Hok).
  apply hasSpecificFilter_true_iff.
  exists j. split.
  - apply scanned_append; [apply target_nonempty | exact Hs].
  - unfold specific_ok in *. apply andb_true_iff in Hok.
    destruct Hok as [Hst Hend]. apply andb_true_iff. split.
    + now apply valid_start_append.
    + now apply valid_end_append.
Qed.

(** X1.  A filter that [hasFilter] finds for a colon-free key is still
    found when any text is appended to the query, and when text ending in
    a boundary byte (whitespace or a non-word character) is put in front
    of it. *)
Theorem hasFilter_stable_under_context
  (query filterType before after : string) (c : ascii) :
  colon_free filterType = true ->
  is_boundary c = true ->
  hasFilter query filterType = Ok true ->
  hasFilter (query ++ after) filterType = Ok true
  /\ hasFilter ((before ++ String c "") ++ query) filterType = Ok true
  /\ hasFilter ((before ++ String c "") ++ query ++ after) filterType
     = Ok true.
Proof.
  intros Hcf Hc Htrue.
  pose proof (hasFilter_append_true _ _ after Hcf Htrue) as Happ.
  split; [exact Happ|]. split.
  - exact (hasFilter_prepend_true _ _ before c Hcf Hc Htrue).
  - exact (hasFilter_prepend_true _ _ before c Hcf Hc Happ).
Qed.

Lemma hasFilter_stable_under_context_witness :
  colon_free "repo" = true /\ is_boundary " " = true
  /\ hasFilter "repo:a/b" "repo" = Ok true
  /\ hasFilter (("is:pr label:x" ++ String " " "") ++ "repo:a/b" ++ "crash")
       "repo" = Ok true.
Proof.
  do 3 (split; [reflexivity|]).
  exact (proj2 (proj2 (@hasFilter_stable_under_context
                         "repo:a/b" "repo" "is:pr label:x" "crash" " "%char
                         eq_refl eq_refl eq_refl))).
Defined.

(** X2.  A pair that [hasSpecificFilter] finds is still found when text
    starting with a boundary byte is appended, and when text ending in a
    boundary byte that does not occur in [filterType:filterValue] is put
    in front of the query. *)
Theorem hasSpecificFilter_stable_under_context
  (query filterType filterValue before after : string) (c d : ascii) :
  is_boundary c = true ->
  excludes c (filterType ++ ":" ++ filterValue) = true ->
  is_boundary d = true ->
  hasSpecificFilter query filterType filterValue = Ok true ->
  hasSpecificFilter (query ++ String d after) filterType filterValue = Ok true
  /\ hasSpecificFilter ((before ++ String c "") ++ query)
       filterType filterValue = Ok true
  /\ hasSpecificFilter ((before ++ String c "") ++ query ++ String d after)
       filterType filterValue = Ok true.
Proof.
  intros Hc Hex Hd Htrue.
  pose proof (hasSpecificFilter_append_true _ _ _ after d Hd Htrue) as Happ.
  split; [exact Happ|]. split.
  - exact (hasSpecificFilter_prepend_true _ _ _ before c Hc Hex Htrue).
  - exact (hasSpecificFilter_prepend_true _ _ _ before c Hc Hex Happ).
Qed.

Lemma hasSpecificFilter_stable_under_context_witness :
  is_boundary " " = true /\ excludes " " ("is" ++ ":" ++ "issue") = true
  /\ is_boundary ")" = true
  /\ hasSpecificFilter "(is:issue" "is" "issue" = Ok true
  /\ hasSpecificFilter
       (("repo:a/b" ++ String " " "") ++ "(is:issue" ++ String ")" " bug")
       "is" "issue" = Ok true.
Proof.
  do 4 (split; [reflexivity|]).
  exact (proj2 (proj2 (@hasSpecificFilter_stable_under_context
                         "(is:issue" "is" "issue" "repo:a/b" " bug"
                         " "%char ")"%char
                         eq_refl eq_refl eq_refl eq_refl))).
Defined.

(** X3.  A positive answer needs room in the query: [hasFilter] only
    returns true when the query holds the key, the colon and at least one
    more byte, and [hasSpecificFilter] only when it holds the whole
    [filterType:filterValue] pair. *)
Theorem scanners_need_room (query filterType filterValue : string) :
  (hasFilter query filterType = Ok true ->
   length filterType + 2 <= length query)
  /\ (hasSpecificFilter query filterType filterValue = Ok true ->
      length filterType + 1 + length filterValue <= length query).
Proof.
  split.
  - intros Htrue. apply hasFilter_true_iff in Htrue.
    destruct Htrue as (j & _ & Hok).
    unfold filter_ok in Hok. apply andb_true_iff in Hok.
    destruct Hok as [_ Hval]. unfold has_value in Hval.
    destruct (get (j + length (filterType ++ ":")) query) as [b|] eqn:Hget;
      [|discriminate].
    apply get_lt in Hget. rewrite length_app in Hget. simpl in Hget. lia.
  - intros Htrue.
    destruct (hasSpecificFilter_sound _ _ _ Htrue) as (i & Hocc & _).
    pose proof (occurs_at_bound (@target_nonempty filterType filterValue) Hocc)
      as Hb.
    rewrite length_app in Hb. simpl in Hb. lia.
Qed.

Lemma scanners_need_room_witness :
  hasFilter "is:x" "is" = Ok true /\ length "is" + 2 <= length "is:x".
Proof.
  split; [reflexivity|].
  exact (proj1 (scanners_need_room "is:x" "is" "") eq_refl).
Defined.

(** X4.  [hasRepoFilter] and [hasTypeFilter] answer true exactly when the
    query holds [repo:], respectively [type:], at a valid filter start
    with a non-whitespace byte after the colon, and answer false
    otherwise; neither panics. *)
Theorem repo_and_type_filters (query : string) :
  (hasRepoFilter query = Ok true
   <-> exists i, valid_filter_occurrence query "repo" i)
  /\ (hasRepoFilter query = Ok false
      <-> ~ exists i, valid_filter_occurrence query "repo" i)
  /\ (hasTypeFilter query = Ok true
      <-> exists i, valid_filter_occurrence query "type" i)
  /\ (hasTypeFilter query = Ok false
      <-> ~ exists i, valid_filter_occurrence query "type" i).
Proof.
  assert (Hkey : forall key, colon_free key = true ->
            (hasFilter query key = Ok true
             <-> exists i, valid_filter_occurrence query key i)
            /\ (hasFilter query key = Ok false
                <-> ~ exists i, valid_filter_occurrence query key i)).
  { intros key Hcf.
    pose proof (@hasFilter_true_iff_occurrence query key Hcf) as Htrue.
    split; [exact Htrue|]. rewrite <- Htrue.
    destruct (hasFilter_total query key) as [H|H]; rewrite H;
      split; congruence. }
  unfold hasRepoFilter, hasTypeFilter.
  destruct (Hkey "repo" eq_refl) as [Hr1 Hr2].
  destruct (Hkey "type" eq_refl) as [Ht1 Ht2].
  repeat split; first [apply Hr1 | apply Hr2 | apply Ht1 | apply Ht2].
Qed.

Lemma repo_and_type_filters_witness :
  hasRepoFilter "(repo:a/b OR repo:c/d)" = Ok true
  /\ exists i, valid_filter_occurrence "(repo:a/b OR repo:c/d)" "repo" i.
Proof.
  split; [reflexivity|].
  exact (proj1 (proj1 (repo_and_type_filters "(repo:a/b OR repo:c/d)"))
           eq_refl).
Defined.

(** ** What [searchHandler] sends *)

(** The two steps of the rewriting, with what each leaves behind. *)
Lemma searchHandler_query_steps (query searchType owner repo : string) :
  exists q1,
    ((hasSpecificFilter query "is" searchType = Ok true /\ q1 = query)
     \/ (hasSpecificFilter query "is" searchType = Ok false
         /\ q1 = "is:" ++ searchType ++ " " ++ query))
    /\ hasSpecificFilter q1 "is" searchType = Ok true
    /\ (((owner = "" \/ repo = "" \/ hasRepoFilter q1 = Ok true)
         /\ searchHandler_query query searchType owner repo = Ok q1)
        \/ (owner <> "" /\ repo <> "" /\ hasRepoFilter q1 = Ok false
            /\ searchHandler_query query searchType owner repo
               = Ok ("repo:" ++ owner ++ "/" ++ repo ++ " " ++ q1))).
Proof.
  assert (Hstep2 : forall q1,
             ((owner = "" \/ repo = "" \/ hasRepoFilter q1 = Ok true)
              /\ (if negb (owner =? "")%string && negb (repo =? "")%string
                  then repoPresent <- hasRepoFilter q1 ;;
                       if negb repoPresent
                       then Ok ("repo:" ++ owner ++ "/" ++ repo ++ " " ++ q1)
                       else Ok q1
                  else Ok q1) = Ok q1)
             \/ (owner <> "" /\ repo <> "" /\ hasRepoFilter q1 = Ok false
                 /\ (if negb (owner =? "")%string && negb (repo =? "")%string
                     then repoPresent <- hasRepoFilter q1 ;;
                          if negb repoPresent
                          then Ok ("repo:" ++ owner ++ "/" ++ repo ++ " " ++ q1)
                          else Ok q1
                     else Ok q1)
                    = Ok ("repo:" ++ owner ++ "/" ++ repo ++ " " ++ q1))).
  { intros q1.
    destruct (String.eqb_spec owner "") as [Ho|Ho]; [left; simpl; tauto|].
    destruct (String.eqb_spec repo "") as [Hr|Hr]; [left; simpl; tauto|].
    simpl. unfold hasRepoFilter.
    destruct (hasFilter_total q1 "repo") as [H|H]; rewrite H; simpl.
    - left. tauto.
    - right. tauto. }
  unfold searchHandler_query.
  destruct (hasSpecificFilter_total query "is" searchType) as [H|H];
    rewrite H; simpl bind; cbv zeta; simpl negb; cbv iota.
  - exists query. split; [left; tauto|]. split; [exact H|]. apply Hstep2.
  - exists ("is:" ++ searchType ++ " " ++ query).
    split; [right; tauto|]. split; [apply is_default_detected|].
    apply Hstep2.
Qed.

(** A query that already carries what the handler wants is sent as it
    is. *)
Lemma searchHandler_query_unchanged (query searchType owner repo : string) :
  hasSpecificFilter query "is" searchType = Ok true ->
  owner = "" \/ repo = "" \/ hasRepoFilter query = Ok true ->
  searchHandler_query query searchType owner repo = Ok query.
Proof.
  intros His Hrepo.
  destruct (searchHandler_query_steps query searchType owner repo)
    as (q1 & Hq1 & _ & Hres).
  assert (q1 = query) as -> by (destruct Hq1 as [[_ ?]|[? _]]; congruence).
  destruct Hres as [[_ Hres] | (Ho & Hr & Hno & _)]; [exact Hres|].
  destruct Hrepo as [?|[?|?]]; congruence.
Qed.

Lemma excludes_space_target (searchType : string) :
  excludes " " searchType = true ->
  excludes " " ("is" ++ ":" ++ searchType) = true.
Proof. intros H. simpl. exact H. Qed.

(** X5.  [searchHandler] never fails on the rewriting and never touches
    the text of the user's query: what it sends is the query with at most
    the [is:<searchType>] default and, before that, at most the
    [repo:<owner>/<repo>] default in front; the repo default appears only
    when both parameters are non-empty. *)
Theorem searchHandler_query_prepends (query searchType owner repo : string) :
  exists isPart repoPart,
    searchHandler_query query searchType owner repo
    = Ok (repoPart ++ isPart ++ query)
    /\ (isPart = "" \/ isPart = "is:" ++ searchType ++ " ")
    /\ (repoPart = ""
        \/ (repoPart = "repo:" ++ owner ++ "/" ++ repo ++ " "
            /\ owner <> "" /\ repo <> "")).
Proof.
  destruct (searchHandler_query_steps query searchType owner repo)
    as (q1 & Hq1 & _ & Hres).
  assert (His : exists isPart,
             q1 = isPart ++ query
             /\ (isPart = "" \/ isPart = "is:" ++ searchType ++ " ")).
  { destruct Hq1 as [[_ ->] | [_ ->]].
    - exists "". split; [reflexivity | now left].
    - exists ("is:" ++ searchType ++ " "). split; [|now right].
      simpl. now rewrite app_assoc_string. }
  destruct His as (isPart & -> & HisPart).
  destruct Hres as [[_ Hres] | (Ho & Hr & _ & Hres)].
  - exists isPart, "". split; [exact Hres|]. split; [exact HisPart | now left].
  - exists isPart, ("repo:" ++ owner ++ "/" ++ repo ++ " ").
    split; [|split; [exact HisPart | right; tauto]].
    rewrite Hres. f_equal. symmetry.
    simpl. rewrite app_assoc_string. simpl. rewrite app_assoc_string.
    reflexivity.
Qed.

(** X6.  The query that [searchHandler] sends always carries the
    [is:<searchType>] pair as [hasSpecificFilter] sees it, provided the
    search type contains no space or no repo default is requested. *)
Theorem searchHandler_query_has_is_filter
  (query searchType owner repo : string) :
  excludes " " searchType = true \/ owner = "" \/ repo = "" ->
  exists sent,
    searchHandler_query query searchType owner repo = Ok sent
    /\ hasSpecificFilter sent "is" searchType = Ok true.
Proof.
  intros Hpre.
  destruct (searchHandler_query_steps query searchType owner repo)
    as (q1 & _ & His & Hres).
  destruct Hres as [[_ Hres] | (Ho & Hr & _ & Hres)].
  - exists q1. split; [exact Hres | exact His].
  - exists ("repo:" ++ owner ++ "/" ++ repo ++ " " ++ q1).
    split; [exact Hres|].
    destruct Hpre as [Hex|[?|?]]; [|contradiction|contradiction].
    rewrite repo_prefix_shape.
    apply hasSpecificFilter_prepend_true;
      [reflexivity | exact (excludes_space_target _ Hex) | exact His].
Qed.

Lemma searchHandler_query_has_is_filter_witness :
  (excludes " " "issue" = true \/ "octo" = "" \/ "cat" = "")
  /\ exists sent,
       searchHandler_query "label:bug" "issue" "octo" "cat" = Ok sent
       /\ hasSpecificFilter sent "is" "issue" = Ok true.
Proof.
  split; [left; reflexivity|].
  exact (searchHandler_query_has_is_filter "label:bug" "issue" "octo" "cat"
           (or_introl eq_refl)).
Defined.

(** X7.  When [owner] and [repo] are non-empty and [owner] does not start
    with whitespace, the query that [searchHandler] sends carries a repo
    filter as [hasRepoFilter] sees it: the user's own, or the default. *)
Theorem searchHandler_query_has_repo_filter
  (query searchType owner repo : string) (c : ascii) :
  get 0 owner = Some c ->
  is_space c = false ->
  repo <> "" ->
  exists sent,
    searchHandler_query query searchType owner repo = Ok sent
    /\ hasRepoFilter sent = Ok true.
Proof.
  intros Hc Hsp Hrepo.
  assert (Howner : owner <> "") by (intros ->; discriminate Hc).
  destruct (searchHandler_query_steps query searchType owner repo)
    as (q1 & _ & _ & Hres).
  destruct Hres as [[Hwhy Hres] | (_ & _ & _ & Hres)].
  - exists q1. split; [exact Hres|].
    destruct Hwhy as [?|[?|?]]; [contradiction | contradiction | assumption].
  - exists ("repo:" ++ owner ++ "/" ++ repo ++ " " ++ q1).
    split; [exact Hres|]. exact (repo_default_detected _ _ _ c Hc Hsp).
Qed.

Lemma searchHandler_query_has_repo_filter_witness :
  get 0 "octo" = Some "o"%char /\ is_space "o" = false /\ "cat" <> ""
  /\ exists sent,
       searchHandler_query "label:bug" "pr" "octo" "cat" = Ok sent
       /\ hasRepoFilter sent = Ok true.
Proof.
  assert (Hne : "cat" <> "") by discriminate.
  do 2 (split; [reflexivity|]). split; [exact Hne|].
  exact (searchHandler_query_has_repo_filter "label:bug" "pr" "octo" "cat"
           "o"%char eq_refl eq_refl Hne).
Defined.

(** X8.  The rewriting is idempotent: sending the rewritten query through
    [searchHandler] again, with the same parameters, changes nothing.
    This needs the defaults to be recognisable once prepended: no space
    in the search type, and an owner that does not start with
    whitespace, whenever a repo default is requested. *)
Theorem searchHandler_query_idempotent
  (query searchType owner repo : string) :
  excludes " " searchType = true \/ owner = "" \/ repo = "" ->
  (owner = "" \/ repo = ""
   \/ exists c, get 0 owner = Some c /\ is_space c = false) ->
  exists sent,
    searchHandler_query query searchType owner repo = Ok sent
    /\ searchHandler_query sent searchType owner repo = Ok sent.
Proof.
  intros Hpre Howner.
  destruct (searchHandler_query_steps query searchType owner repo)
    as (q1 & _ & His & Hres).
  destruct Hres as [[Hwhy Hres] | (Ho & Hr & _ & Hres)].
  - exists q1. split; [exact Hres|].
    apply searchHandler_query_unchanged; assumption.
  - exists ("repo:" ++ owner ++ "/" ++ repo ++ " " ++ q1).
    split; [exact Hres|].
    apply searchHandler_query_unchanged.
    + destruct Hpre as [Hex|[?|?]]; [|contradiction|contradiction].
      rewrite repo_prefix_shape.
      apply hasSpecificFilter_prepend_true;
        [reflexivity | exact (excludes_space_target _ Hex) | exact His].
    + right. right.
      destruct Howner as [?|[?|(c & Hc & Hsp)]];
        [contradiction | contradiction |].
      exact (repo_default_detected _ _ _ c Hc Hsp).
Qed.

Lemma searchHandler_query_idempotent_witness :
  (excludes " " "issue" = true \/ "octo" = "" \/ "cat" = "")
  /\ ("octo" = "" \/ "cat" = ""
      \/ exists c, get 0 "octo" = Some c /\ is_space c = false)
  /\ exists sent,
       searchHandler_query "crash" "issue" "octo" "cat" = Ok sent
       /\ searchHandler_query sent "issue" "octo" "cat" = Ok sent.
Proof.
  assert (Ho : "octo" = "" \/ "cat" = ""
               \/ exists c, get 0 "octo" = Some c /\ is_space c = false)
    by (right; right; exists "o"%char; split; reflexivity).
  split; [left; reflexivity|]. split; [exact Ho|].
  exact (searchHandler_query_idempotent "crash" "issue" "octo" "cat"
           (or_introl eq_refl) Ho).
Defined.

(** X9.  A query in which [hasRepoFilter] finds a repo filter never gets
    the [repo:<owner>/<repo>] default: at most the [is:] default is put
    in front, and the user's repo filter is still found in what is
    sent. *)
Theorem searchHandler_query_keeps_user_repo
  (query searchType owner repo : string) :
  hasRepoFilter query = Ok true ->
  exists isPart,
    searchHandler_query query searchType owner repo = Ok (isPart ++ query)
    /\ (isPart = "" \/ isPart = "is:" ++ searchType ++ " ")
    /\ hasRepoFilter (isPart ++ query) = Ok true.
Proof.
  intros Huser.
  destruct (searchHandler_query_steps query searchType owner repo)
    as (q1 & Hq1 & _ & Hres).
  assert (His : exists isPart,
             q1 = isPart ++ query
             /\ (isPart = "" \/ isPart = "is:" ++ searchType ++ " ")
             /\ hasRepoFilter q1 = Ok true).
  { destruct Hq1 as [[_ ->] | [_ ->]].
    - exists "". split; [reflexivity|]. split; [now left | exact Huser].
    - exists ("is:" ++ searchType ++ " ").
      split; [simpl; now rewrite app_assoc_string|]. split; [now right|].
      rewrite is_prefix_shape. unfold hasRepoFilter in *.
      apply hasFilter_prepend_true; [reflexivity | reflexivity | exact Huser]. }
  destruct His as (isPart & Heq & HisPart & Hstill).
  exists isPart. rewrite <- Heq.
  split; [|split; [exact HisPart | exact Hstill]].
  destruct Hres as [[_ Hres] | (_ & _ & Hno & _)]; [exact Hres|].
  congruence.
Qed.

Lemma searchHandler_query_keeps_user_repo_witness :
  hasRepoFilter "repo:a/b crash" = Ok true
  /\ exists isPart,
       searchHandler_query "repo:a/b crash" "issue" "octo" "cat"
       = Ok (isPart ++ "repo:a/b crash")
       /\ (isPart = "" \/ isPart = "is:" ++ "issue" ++ " ")
       /\ hasRepoFilter (isPart ++ "repo:a/b crash") = Ok true.
Proof.
  split; [reflexivity|].
  exact (searchHandler_query_keeps_user_repo "repo:a/b crash" "issue"
           "octo" "cat" eq_refl).
Defined.

(** ** Targets that cannot overlap themselves *)

(** [t] has no proper border: no proper non-empty suffix of [t] is also a
    prefix of [t].  Two occurrences of such a [t] never overlap. *)
Definition self_overlap_free (t : string) : bool :=
  forallb
    (fun d =>
       negb (String.eqb (substring d (length t - d) t)
               (substring 0 (length t - d) t)))
    (seq 1 (length t - 1)).

Lemma overlap_gives_border (t q : string) (i d : nat) :
  occurs_at t q i -> occurs_at t q (i + d) -> d < length t ->
  substring d (length t - d) t = substring 0 (length t - d) t.
Proof.
  intros Hi Hj Hd. apply get_correct. intros k.
  destruct (Nat.lt_ge_cases k (length t - d)) as [Hk|Hk].
  - rewrite !substring_correct1 by exact Hk. rewrite Nat.add_0_r.
    rewrite <- (occurs_at_get (p := k + d) Hi) by lia.
    rewrite <- (occurs_at_get (p := k) Hj) by lia.
    f_equal. lia.
  - now rewrite !substring_correct2 by exact Hk.
Qed.

Lemma self_overlap_free_spec (t q : string) (i j : nat) :
  self_overlap_free t = true ->
  occurs_at t q i -> occurs_at t q j -> i < j -> i + length t <= j.
Proof.
  intros Hfree Hi Hj Hlt.
  destruct (Nat.le_gt_cases (i + length t) j) as [H|H]; [exact H | exfalso].
  unfold self_overlap_free in Hfree. rewrite forallb_forall in Hfree.
  assert (Hin : In (j - i) (seq 1 (length t - 1))) by (apply in_seq; lia).
  specialize (Hfree _ Hin). apply negb_true_iff in Hfree.
  apply String.eqb_neq in Hfree. apply Hfree.
  apply (overlap_gives_border t q i (j - i)); [exact Hi | | lia].
  now replace (i + (j - i)) with j by lia.
Qed.

(** X10.  When the target [filterType:filterValue] cannot overlap itself,
    as is the case for [is:issue] and [is:pr], [hasSpecificFilter] tries
    every occurrence: it returns true if and only if some occurrence of
    the target has a valid start and a valid end, and false otherwise. *)
Theorem hasSpecificFilter_iff_when_overlap_free
  (query filterType filterValue : string) :
  self_overlap_free (filterType ++ ":" ++ filterValue) = true ->
  (hasSpecificFilter query filterType filterValue = Ok true
   <-> exists i, valid_pair_occurrence query filterType filterValue i)
  /\ (hasSpecificFilter query filterType filterValue = Ok false
      <-> ~ exists i, valid_pair_occurrence query filterType filterValue i).
Proof.
  intros Hfree.
  assert (Htrue : hasSpecificFilter query filterType filterValue = Ok true
                  <-> exists i,
                        valid_pair_occurrence query filterType filterValue i).
  { split; [apply hasSpecificFilter_sound|].
    intros (i & Hi). pose proof Hi as (Hocc & _).
    apply specific_ok_iff in Hi. destruct Hi as [_ Hok].
    apply hasSpecificFilter_true_iff. exists i. split; [|exact Hok].
    apply scanned_of_no_overlap; [apply target_nonempty | exact Hocc |].
    intros k Hk Hlt. exact (self_overlap_free_spec _ _ k i Hfree Hk Hocc Hlt). }
  split; [exact Htrue|]. rewrite <- Htrue.
  destruct (hasSpecificFilter_total query filterType filterValue) as [H|H];
    rewrite H; split; congruence.
Qed.

Lemma hasSpecificFilter_iff_when_overlap_free_witness :
  self_overlap_free ("is" ++ ":" ++ "pr") = true
  /\ (hasSpecificFilter "xis:pr is:pr" "is" "pr" = Ok true
      <-> exists i, valid_pair_occurrence "xis:pr is:pr" "is" "pr" i).
Proof.
  split; [reflexivity|].
  exact (proj1 (hasSpecificFilter_iff_when_overlap_free
                  "xis:pr is:pr" "is" "pr" eq_refl)).
Defined.

Example search_types_overlap_free :
  self_overlap_free "is:issue" = true /\ self_overlap_free "is:pr" = true.
Proof. split; reflexivity. Qed.

(** * Bytes and characters

    The claims word the boundary rules in characters.  The code reads
    [rune(query[i])], one byte, so for text outside ASCII the two readings
    part. *)

(** The test of lines 44, 88 and 98 on a rune: whitespace, or neither
    letter nor digit nor underscore. *)
Definition boundary_rune (r : rune) : bool :=
  unicode.IsSpace r
  || (negb (unicode.IsLetter r) && negb (unicode.IsDigit r)
      && negb (r =? underscore)%Z).



Lemma boundary_rune_byte (b : ascii) :
  boundary_rune (rune_of_byte b) = is_boundary b.
Proof. unfold boundary_rune, is_boundary. apply boundary_test. Qed.

Lemma valid_start_bytes (q : string) (i : nat) :
  valid_start q i = true
  <-> i = 0
      \/ exists j b, i = S j /\ get j q = Some b
                     /\ boundary_rune (rune_of_byte b) = true.
Proof.
  destruct i as [|j]; simpl.
  - split; [now left | reflexivity].
  - split.
    + destruct (get j q) as [b|] eqn:Hget; [|discriminate].
      intros H. right. exists j, b.
      rewrite boundary_rune_byte. now repeat split.
    + intros [H | (j' & b & [= <-] & Hget & Hb)]; [discriminate|].
      rewrite Hget. now rewrite boundary_rune_byte in Hb.
Qed.

Lemma has_value_bytes (q : string) (j : nat) :
  has_value q j = true
  <-> exists c, get j q = Some c /\ unicode.IsSpace (rune_of_byte c) = false.
Proof.
  unfold has_value, is_space. split.
  - destruct (get j q) as [c|]; [|discriminate].
    intros H. exists c. split; [reflexivity|]. now apply negb_true_iff.
  - intros (c & -> & H). now rewrite H.
Qed.

Lemma valid_end_bytes (q : string) (j : nat) :
  valid_end q j = true
  <-> j = length q
      \/ exists c, get j q = Some c /\ boundary_rune (rune_of_byte c) = true.
Proof.
  unfold valid_end. rewrite orb_true_iff, Nat.eqb_eq. split.
  - intros [H|H]; [now left | right].
    destruct (get j q) as [c|]; [|discriminate].
    exists c. rewrite boundary_rune_byte. now split.
  - intros [H | (c & -> & H)]; [now left | right].
    now rewrite boundary_rune_byte in H.
Qed.






Lemma hasSpecificFilter_true_iff_occurrence
  (query filterType filterValue : string) :
  self_overlap_free (filterType ++ ":" ++ filterValue) = true ->
  hasSpecificFilter query filterType filterValue = Ok true
  <-> exists i, valid_pair_occurrence query filterType filterValue i.
Proof.
  intros Hfree. split; [apply hasSpecificFilter_sound|].
  intros (i & Hi). pose proof Hi as (Hocc & _).
  apply specific_ok_iff in Hi. destruct Hi as [_ Hok].
  apply hasSpecificFilter_true_iff. exists i. split; [|exact Hok].
  apply scanned_of_no_overlap; [apply target_nonempty | exact Hocc |].
  intros k Hk Hlt. exact (self_overlap_free_spec _ _ k i Hfree Hk Hocc Hlt).
Qed.

(** C9.  The boundary tests classify single bytes, not decoded
    characters.  What [hasFilter] and [hasSpecificFilter] return is
    decided by the one byte before an occurrence and the one byte after
    it, each cast to a rune, hence a Latin-1 code point, and passed to the
    space, letter and digit predicates.  So for the letter U+00E9,
    encoded as the bytes 195 169, both scanners accept a filter that
    directly follows it, since byte 169 is no letter, digit or underscore;
    every multi-byte whitespace character after the colon counts as a
    value; and the other way round, a pair followed by the no-break space
    U+00A0 is rejected, its lead byte 194 being a Latin-1 letter. *)
Theorem boundary_tests_are_bytewise :
  (forall q ft,
      colon_free ft = true ->
      hasFilter q ft = Ok true
      <-> exists i,
            occurs_at (ft ++ ":") q i
            /\ (i = 0
                \/ exists j b, i = S j /\ get j q = Some b
                               /\ boundary_rune (rune_of_byte b) = true)
            /\ exists c, get (i + length (ft ++ ":")) q = Some c
                         /\ unicode.IsSpace (rune_of_byte c) = false)
  /\ (forall q ft fv,
         self_overlap_free (ft ++ ":" ++ fv) = true ->
         hasSpecificFilter q ft fv = Ok true
         <-> exists i,
               occurs_at (ft ++ ":" ++ fv) q i
               /\ (i = 0
                   \/ exists j b, i = S j /\ get j q = Some b
                                  /\ boundary_rune (rune_of_byte b) = true)
               /\ (i + length (ft ++ ":" ++ fv) = length q
                   \/ exists c,
                        get (i + length (ft ++ ":" ++ fv)) q = Some c
                        /\ boundary_rune (rune_of_byte c) = true))
  /\ (forall b, (0 <= rune_of_byte b <= unicode.MaxLatin1)%Z)
  /\ (utf8.EncodeRune 0xE9%Z = String "195" (String "169" "")
      /\ unicode.IsLetter 0xE9%Z = true
      /\ boundary_rune 0xE9%Z = false
      /\ boundary_rune (rune_of_byte "169") = true
      /\ hasFilter (utf8.EncodeRune 0xE9%Z ++ "is:issue") "is" = Ok true
      /\ hasSpecificFilter (utf8.EncodeRune 0xE9%Z ++ "is:issue") "is" "issue"
         = Ok true)
  /\ (forall r,
         (0x80 <= r)%Z -> unicode.IsSpace r = true ->
         hasFilter ("is:" ++ utf8.EncodeRune r) "is" = Ok true)
  /\ (unicode.IsSpace 0xA0%Z = true
      /\ boundary_rune 0xA0%Z = true
      /\ boundary_rune (rune_of_byte "194") = false
      /\ hasSpecificFilter ("is:issue" ++ utf8.EncodeRune 0xA0%Z) "is" "issue"
         = Ok false).
Proof.
  split; [|split; [|split; [|split; [|split]]]].
  - intros q ft Hcf.
    rewrite (hasFilter_true_iff_occurrence q ft Hcf).
    unfold valid_filter_occurrence.
    split; intros (i & Hocc & Hst & Hval); exists i;
      (split; [exact Hocc|]); (split;
        [now apply valid_start_bytes | now apply has_value_bytes]).
  - intros q ft fv Hfree.
    rewrite (hasSpecificFilter_true_iff_occurrence q ft fv Hfree).
    unfold valid_pair_occurrence.
    split; intros (i & Hocc & Hst & Hend); exists i;
      (split; [exact Hocc|]); (split;
        [now apply valid_start_bytes | now apply valid_end_bytes]).
  - apply rune_of_byte_Latin1.
  - repeat split; reflexivity.
  - intros r Hr Hsp.
    pose proof multibyte_spaces_carry_value as Hall.
    rewrite forallb_forall in Hall.
    specialize (Hall r (IsSpace_multibyte Hr Hsp)).
    destruct (hasFilter ("is:" ++ utf8.EncodeRune r) "is") as [[|]| |];
      first [reflexivity | discriminate Hall].
  - repeat split; reflexivity.
Qed.

Lemma boundary_tests_are_bytewise_witness :
  (colon_free "is" = true
   /\ (hasFilter (utf8.EncodeRune 0xE9%Z ++ "is:issue") "is" = Ok true
       <-> exists i,
             occurs_at ("is" ++ ":") (utf8.EncodeRune 0xE9%Z ++ "is:issue") i
             /\ (i = 0
                 \/ exists j b,
                      i = S j
                      /\ get j (utf8.EncodeRune 0xE9%Z ++ "is:issue") = Some b
                      /\ boundary_rune (rune_of_byte b) = true)
             /\ exists c,
                  get (i + length ("is" ++ ":"))
                    (utf8.EncodeRune 0xE9%Z ++ "is:issue") = Some c
                  /\ unicode.IsSpace (rune_of_byte c) = false))
  /\ ((0x80 <= 0x3000)%Z /\ unicode.IsSpace 0x3000%Z = true
      /\ hasFilter ("is:" ++ utf8.EncodeRune 0x3000%Z) "is" = Ok true).
Proof.
  split.
  - split; [reflexivity|].
    exact (proj1 boundary_tests_are_bytewise
             (utf8.EncodeRune 0xE9%Z ++ "is:issue") "is" eq_refl).
  - split; [discriminate|]. split; [reflexivity|].
    apply (proj1 (proj2 (proj2 (proj2 (proj2 boundary_tests_are_bytewise)))));
      [discriminate | reflexivity].
Defined.
